(** * Root-finding routines of [utils.py]: a shallow embedding and its properties

    The module [utils.py] holds a bracketing scanner ([incremental_search])
    and five root refiners ([bisection], [false_position], [newton_raphson],
    [secant], [modified_secant]).  Every routine is a [while] loop over a few
    local variables; the only exception any of them can raise by itself is
    the [ZeroDivisionError] of Python's [/].

    The embedding keeps that shape:
    - a Python call either returns a value or raises ([py]);
    - a [while] loop is run by [while], which threads the local variables and
      counts the evaluations of the loop test with a fuel ([None] is "still
      running after that many tests");
    - the numbers are an interface ([Number]) with two instances: the exact
      rationals [Qc] (the "real numbers" of the specification, and what
      Python computes on [fractions.Fraction]) and the binary64 floats of
      the kernel ([float], what Python computes on [float]).

    Part I is the model, Part II the facts about loops, passes and exact
    arithmetic, Part III the properties of the specification, Parts IV and V
    further facts and further properties of the code. *)

From Stdlib Require Import Floats.PrimFloat.
From Stdlib Require Import ZArith QArith Qabs Qround Qcanon Qcabs List Bool Lia Lqa.
Import ListNotations.

Set Implicit Arguments.

(** A decimal float literal stands for the nearest binary64 value, as in
    Python. *)
Set Warnings "-inexact-float".

(** * Part I.  The model *)

(** ** Python calls: values and exceptions *)

Inductive exn : Type :=
| ZeroDivisionError.

Inductive py (A : Type) : Type :=
| Ret (a : A)
| Raise (e : exn).

Arguments Ret {A} a.
Arguments Raise {A} e.

Definition bind {A B : Type} (m : py A) (k : A -> py B) : py B :=
  match m with
  | Ret a => k a
  | Raise e => Raise e
  end.

Declare Scope py_scope.
Delimit Scope py_scope with py.
Notation "x <- m ;; k" := (bind m (fun x => k))
  (at level 61, m at next level, right associativity) : py_scope.

(** ** [while] loops

    One pass of a loop body ends in [Continue] (back to the test), [Break]
    (leave the loop, go on after it) or [Return] (leave the function). *)

Inductive ctl (S R : Type) : Type :=
| Continue (s : S)
| Break (s : S)
| Return (r : R).

Arguments Continue {S R} s.
Arguments Break {S R} s.
Arguments Return {S R} r.

(** A computation that may not terminate: its result within a given number
    of loop tests. *)
Definition comp (A : Type) : Type := nat -> option A.

Definition returns {A : Type} (c : comp A) (a : A) : Prop :=
  exists n : nat, forall fuel : nat, (n <= fuel)%nat -> c fuel = Some a.

Definition diverges {A : Type} (c : comp A) : Prop :=
  forall fuel : nat, c fuel = None.

(** [while cond body s]: the loop leaves either by its test or a [break]
    (left, with the locals at that point), by a [return] (right), or by an
    exception. *)
Fixpoint while {S R : Type} (cond : S -> bool) (body : S -> py (ctl S R))
  (s : S) (fuel : nat) : option (py (S + R)) :=
  match fuel with
  | O => None
  | Datatypes.S fuel' =>
      if cond s then
        match body s with
        | Raise e => Some (Raise e)
        | Ret (Continue s') => while cond body s' fuel'
        | Ret (Break s') => Some (Ret (inl s'))
        | Ret (Return r) => Some (Ret (inr r))
        end
      else Some (Ret (inl s))
  end.

(** The statements after the loop: [after] is what the function returns from
    the locals the loop left. *)
Definition and_then {S R : Type} (loop : comp (py (S + R))) (after : S -> R)
  : comp (py R) :=
  fun fuel =>
    match loop fuel with
    | None => None
    | Some (Raise e) => Some (Raise e)
    | Some (Ret (inl s)) => Some (Ret (after s))
    | Some (Ret (inr r)) => Some (Ret r)
    end.

(** [reach cond body s0 s]: the loop started with the locals [s0] comes back
    to its test with the locals [s]. *)
Inductive reach {S R : Type} (cond : S -> bool) (body : S -> py (ctl S R))
  (s0 : S) : S -> Prop :=
| reach_start : reach cond body s0 s0
| reach_pass (s s' : S) :
    reach cond body s0 s -> cond s = true -> body s = Ret (Continue s') ->
    reach cond body s0 s'.

(** ** Numbers

    What the routines ask of their numbers: the literals [0] and [2], the
    four operations, unary minus and the comparisons [==], [<], [<=].
    [ndiv] is the quotient for a non-zero divisor; Python's [/] is [pydiv]
    below. *)

Class Number (num : Type) : Type := {
  zero : num;
  two : num;
  nadd : num -> num -> num;
  nsub : num -> num -> num;
  nmul : num -> num -> num;
  ndiv : num -> num -> num;
  nneg : num -> num;
  neqb : num -> num -> bool;
  nltb : num -> num -> bool;
  nleb : num -> num -> bool;
  two_nonzero : neqb two zero = false
}.

Declare Scope num_scope.
Delimit Scope num_scope with num.
Infix "+" := nadd : num_scope.
Infix "-" := nsub : num_scope.
Infix "*" := nmul : num_scope.
Notation "- x" := (nneg x) : num_scope.
Infix "=?" := neqb (at level 70) : num_scope.
Infix "<?" := nltb (at level 70) : num_scope.
Infix "<=?" := nleb (at level 70) : num_scope.

(** Python's [a / b]: raises when the divisor compares equal to zero. *)
Definition pydiv {num : Type} `{Number num} (a b : num) : py num :=
  if (b =? zero)%num then Raise ZeroDivisionError else Ret (ndiv a b).

Infix "/" := pydiv : num_scope.

(** *** Exact rationals *)

Definition Qcltb (a b : Qc) : bool := negb (Qle_bool b a).
Definition Qcleb (a b : Qc) : bool := Qle_bool a b.

#[export] Instance Qc_Number : Number Qc := {
  zero := Q2Qc 0;
  two := Q2Qc 2;
  nadd := Qcplus;
  nsub := Qcminus;
  nmul := Qcmult;
  ndiv := Qcdiv;
  nneg := Qcopp;
  neqb := Qc_eq_bool;
  nltb := Qcltb;
  nleb := Qcleb;
  two_nonzero := eq_refl
}.

(** *** Binary64 floats *)

#[export] Instance float_Number : Number float := {
  zero := PrimFloat.zero;
  two := PrimFloat.two;
  nadd := PrimFloat.add;
  nsub := PrimFloat.sub;
  nmul := PrimFloat.mul;
  ndiv := PrimFloat.div;
  nneg := PrimFloat.opp;
  neqb := PrimFloat.eqb;
  nltb := PrimFloat.ltb;
  nleb := PrimFloat.leb;
  two_nonzero := eq_refl
}.

(** ** The routines *)

Section Routines.

Context {num : Type} `{Number num}.

Local Open Scope num_scope.
Local Open Scope py_scope.

(** The convergence test [-threshold < y < threshold] (a chained comparison:
    [y] is evaluated once). *)
Definition converged (threshold y : num) : bool :=
  (- threshold <? y) && (y <? threshold).

(** *** [incremental_search]

    The locals the loop assigns: the position [lb], moved by
    [lb += increment_length], the count and the list. *)

Record scan_locals : Type := {
  scan_lb : num;
  number_of_roots : Z;
  intervals : list (list num)
}.

Definition incremental_search_cond (ub : num) (s : scan_locals) : bool :=
  scan_lb s <=? ub.

Definition incremental_search_body (f : num -> num) (increment_length : num)
  (s : scan_locals) : py (ctl scan_locals (Z * list (list num))) :=
  let lb := scan_lb s in
  let s1 :=
    if f lb =? zero then
      {| scan_lb := lb;
         number_of_roots := number_of_roots s + 1;
         intervals :=
           intervals s ++ [[lb - increment_length; lb + increment_length]] |}
    else s in
  let s2 :=
    if f lb * f (lb + increment_length) <? zero then
      {| scan_lb := lb;
         number_of_roots := number_of_roots s1 + 1;
         intervals := intervals s1 ++ [[lb; lb + increment_length]] |}
    else s1 in
  Ret (Continue {| scan_lb := lb + increment_length;
                   number_of_roots := number_of_roots s2;
                   intervals := intervals s2 |}).

Definition incremental_search (f : num -> num) (lb ub increment_length : num)
  : comp (py (Z * list (list num))) :=
  and_then
    (while (incremental_search_cond ub)
           (incremental_search_body f increment_length)
           {| scan_lb := lb; number_of_roots := 0; intervals := [] |})
    (fun s => (number_of_roots s, intervals s)).

(** *** [bisection] *)

Record bracket_locals : Type := {
  lb : num;
  ub : num;
  iteration : Z
}.

Definition bracket_cond (s : bracket_locals) : bool := lb s <=? ub s.

(** The [if]/[elif]/[elif] that follows the estimate [x] in [bisection] and
    [false_position], and the test of the iteration cap after it. *)
Definition rebracket (f : num -> num) (threshold : num) (max_iterations : Z)
  (s : bracket_locals) (iteration' : Z) (x : num)
  : py (ctl bracket_locals (option num)) :=
  if converged threshold (f x) then Ret (Return (Some x))
  else
    let s' :=
      if f (lb s) * f x <? zero then
        {| lb := lb s; ub := x; iteration := iteration' |}
      else if f (ub s) * f x <? zero then
        {| lb := x; ub := ub s; iteration := iteration' |}
      else
        {| lb := lb s; ub := ub s; iteration := iteration' |} in
    if (iteration' >? max_iterations)%Z then Ret (Break s')
    else Ret (Continue s').

Definition bisection_body (f : num -> num) (threshold : num)
  (max_iterations : Z) (s : bracket_locals)
  : py (ctl bracket_locals (option num)) :=
  let iteration' := (iteration s + 1)%Z in
  mid <- (lb s + ub s) / two ;;
  rebracket f threshold max_iterations s iteration' mid.

Definition bisection (f : num -> num) (lb ub threshold : num)
  (max_iterations : Z) : comp (py (option num)) :=
  and_then
    (while bracket_cond (bisection_body f threshold max_iterations)
           {| lb := lb; ub := ub; iteration := 0 |})
    (fun _ => None).

(** *** [false_position] *)

Definition false_position_body (f : num -> num) (threshold : num)
  (max_iterations : Z) (s : bracket_locals)
  : py (ctl bracket_locals (option num)) :=
  let iteration' := (iteration s + 1)%Z in
  q <- (f (ub s) * (lb s - ub s)) / (f (lb s) - f (ub s)) ;;
  let x_r := ub s - q in
  rebracket f threshold max_iterations s iteration' x_r.

(** The estimate [x_r] of a pass whose divisor is not zero. *)
Definition false_position_estimate (f : num -> num) (s : bracket_locals)
  : num :=
  ub s - ndiv (f (ub s) * (lb s - ub s)) (f (lb s) - f (ub s)).

Definition false_position (f : num -> num) (lb ub threshold : num)
  (max_iterations : Z) : comp (py (option num)) :=
  and_then
    (while bracket_cond (false_position_body f threshold max_iterations)
           {| lb := lb; ub := ub; iteration := 0 |})
    (fun _ => None).

(** *** [newton_raphson] *)

Record newton_locals : Type := {
  nr_x : num;
  nr_iteration : Z
}.

Definition newton_raphson_body (f f_der : num -> num) (threshold : num)
  (max_iterations : Z) (s : newton_locals)
  : py (ctl newton_locals (option num)) :=
  let iteration' := (nr_iteration s + 1)%Z in
  q <- f (nr_x s) / f_der (nr_x s) ;;
  let x := nr_x s - q in
  if converged threshold (f x) then Ret (Return (Some x))
  else if (iteration' >? max_iterations)%Z then
    Ret (Break {| nr_x := x; nr_iteration := iteration' |})
  else Ret (Continue {| nr_x := x; nr_iteration := iteration' |}).

Definition newton_raphson (f f_der : num -> num) (x0 threshold : num)
  (max_iterations : Z) : comp (py (option num)) :=
  and_then
    (while (fun _ => true)
           (newton_raphson_body f f_der threshold max_iterations)
           {| nr_x := x0; nr_iteration := 0 |})
    (fun _ => None).

(** *** [secant] *)

Record secant_locals : Type := {
  x0 : num;
  x1 : num;
  sec_iteration : Z
}.

Definition secant_body (f : num -> num) (threshold : num)
  (max_iterations : Z) (s : secant_locals)
  : py (ctl secant_locals (option num)) :=
  let iteration' := (sec_iteration s + 1)%Z in
  q <- (f (x1 s) * (x1 s - x0 s)) / (f (x1 s) - f (x0 s)) ;;
  let x := x1 s - q in
  if converged threshold (f x) then Ret (Return (Some x))
  else if (iteration' >? max_iterations)%Z then
    Ret (Break {| x0 := x0 s; x1 := x1 s; sec_iteration := iteration' |})
  else Ret (Continue {| x0 := x1 s; x1 := x; sec_iteration := iteration' |}).

Definition secant (f : num -> num) (x0 x1 threshold : num)
  (max_iterations : Z) : comp (py (option num)) :=
  and_then
    (while (fun _ => true) (secant_body f threshold max_iterations)
           {| x0 := x0; x1 := x1; sec_iteration := 0 |})
    (fun _ => None).

(** *** [modified_secant]

    [x0] and [dx] are parameters the loop never assigns: its only local is
    [iteration]. *)

Definition modified_secant_body (f : num -> num) (x0 dx threshold : num)
  (max_iterations : Z) (iteration : Z) : py (ctl Z (option num)) :=
  let iteration' := (iteration + 1)%Z in
  q <- (f x0 * dx) / (f (x0 + dx) - f x0) ;;
  let x := x0 - q in
  if converged threshold (f x) then Ret (Return (Some x))
  else if (iteration' >? max_iterations)%Z then Ret (Break iteration')
  else Ret (Continue iteration').

Definition modified_secant (f : num -> num) (x0 dx threshold : num)
  (max_iterations : Z) : comp (py (option num)) :=
  and_then
    (while (fun _ => true)
           (modified_secant_body f x0 dx threshold max_iterations) 0%Z)
    (fun _ => None).

(** ** The specification's notions *)

(** What a call of a refiner may end in: a converged estimate, [None], or
    an exception under the condition [zero_divisor]. *)
Definition outcome_ok (f : num -> num) (threshold : num)
  (zero_divisor : Prop) (o : py (option num)) : Prop :=
  match o with
  | Ret (Some r) => converged threshold (f r) = true
  | Ret None => True
  | Raise e => e = ZeroDivisionError /\ zero_divisor
  end.

(** The specification's reading of [modified_secant]: the estimate
    [x0 - f(x0)*dx/(f(x0+dx)-f(x0))], computed and tested once. *)
Definition modified_secant_estimate (f : num -> num) (x0 dx : num) : py num :=
  q <- (f x0 * dx) / (f (x0 + dx) - f x0) ;;
  Ret (x0 - q).

Definition single_shot (f : num -> num) (x0 dx threshold : num)
  : py (option num) :=
  x <- modified_secant_estimate f x0 dx ;;
  Ret (if converged threshold (f x) then Some x else None).

(** The positions of the scan: [lb], then [lb += increment_length] pass
    after pass. *)
Fixpoint scan_position (lb increment_length : num) (k : nat) : num :=
  match k with
  | O => lb
  | Datatypes.S k' => scan_position lb increment_length k' + increment_length
  end.

(** What one pass of the scan appends at the position [x]: the two [if]s of
    the loop body, in their order. *)
Definition emitted_at (f : num -> num) (increment_length x : num)
  : list (list num) :=
  (if f x =? zero then [[x - increment_length; x + increment_length]]
   else []) ++
  (if f x * f (x + increment_length) <? zero then [[x; x + increment_length]]
   else []).

(** The scan as a comprehension over its first [n] positions. *)
Definition scanned (f : num -> num) (lb increment_length : num) (n : nat)
  : list (list num) :=
  flat_map (emitted_at f increment_length)
           (map (scan_position lb increment_length) (seq 0 n)).

(** The locals of the scan after [j] passes: at the [j]-th position, with
    what the first [j] positions emitted, all of them within [ub]. *)
Definition scan_after (f : num -> num) (lb ub increment_length : num)
  (j : nat) (s : scan_locals) : Prop :=
  scan_lb s = scan_position lb increment_length j /\
  intervals s = scanned f lb increment_length j /\
  number_of_roots s = Z.of_nat (length (intervals s)) /\
  forall k : nat, (k < j)%nat ->
    (scan_position lb increment_length k <=? ub) = true.

End Routines.

(** ** Exact arithmetic: notions stated on [Qc] *)

Section ExactNotions.

Local Open Scope Qc_scope.

(** The defaults of the refiners: [threshold = 1e-3], [max_iterations = 100]. *)
Definition default_threshold : Qc := Q2Qc (1 # 1000).
Definition default_max_iterations : Z := 100.

(** The result contract of the specification: an estimate [r] with
    [|f r| < threshold], the not-found signal, or a [ZeroDivisionError]
    under [zero_divisor]. *)
Definition contract (f : Qc -> Qc) (threshold : Qc) (zero_divisor : Prop)
  (o : py (option Qc)) : Prop :=
  match o with
  | Ret (Some r) => [f r] < threshold
  | Ret None => True
  | Raise e => e = ZeroDivisionError /\ zero_divisor
  end.

(** What the scan appends at a position [x] of the domain: the heuristic
    interval around an exact zero, or the step across a strict change of
    sign. *)
Definition emitted_interval (f : Qc -> Qc) (lb ub increment_length : Qc)
  (iv : list Qc) : Prop :=
  exists x : Qc, lb <= x /\ x <= ub /\
    ((f x = Q2Qc 0 /\ iv = [x - increment_length; x + increment_length]) \/
     (f x * f (x + increment_length) < Q2Qc 0 /\
      iv = [x; x + increment_length])).

(** The invariant of the scan: the position stays right of [lb], the count
    is the length of the list, and the list holds emitted intervals only. *)
Definition scan_invariant (f : Qc -> Qc) (lb ub increment_length : Qc)
  (s : scan_locals) : Prop :=
  lb <= scan_lb s /\
  number_of_roots s = Z.of_nat (length (intervals s)) /\
  Forall (emitted_interval f lb ub increment_length) (intervals s).

(** The invariant of [bisection]: the bracket stays ordered, inside the
    initial one. *)
Definition within_bracket (lb0 ub0 : Qc) (s : bracket_locals) : Prop :=
  lb0 <= lb s /\ lb s <= ub s /\ ub s <= ub0.

(** Comparing the result of a run with an expected outcome: the numbers by
    [Qc_eq_bool], so that no proof of canonicity is compared. *)
Definition same_result (c : option (py (option Qc))) (o : py (option Qc))
  : bool :=
  match c, o with
  | Some (Ret (Some x)), Ret (Some y) => Qc_eq_bool x y
  | Some (Ret None), Ret None => true
  | Some (Raise ZeroDivisionError), Raise ZeroDivisionError => true
  | _, _ => false
  end.

(** The sample of [main.py]: [f x = x**2 - 7*x + 10] and its derivative. *)
Definition sample_f (x : Qc) : Qc := x * x - Q2Qc 7 * x + Q2Qc 10.

Definition sample_f_der (x : Qc) : Qc := Q2Qc 2 * x - Q2Qc 7.

(** The number of positions [lb + k * increment_length] that do not exceed
    [ub], for a positive increment. *)
Definition scan_length (lb ub increment_length : Qc) : nat :=
  if Qcleb lb ub
  then Datatypes.S (Z.to_nat (Qfloor ((ub - lb) / increment_length)%Qc))
  else O.

(** The invariant of [false_position] on a bracket with a change of sign:
    the bracket stays inside the initial one, strictly ordered, with values
    of opposite signs at its ends. *)
Definition sign_change_bracket (f : Qc -> Qc) (lb0 ub0 : Qc)
  (s : bracket_locals) : Prop :=
  lb0 <= lb s /\ lb s < ub s /\ ub s <= ub0 /\
  f (lb s) * f (ub s) < Q2Qc 0.

(** The invariant of [bisection] on such a bracket: moreover each pass
    halves the width. *)
Definition halving_bracket (f : Qc -> Qc) (lb0 ub0 : Qc)
  (s : bracket_locals) : Prop :=
  within_bracket lb0 ub0 s /\
  f (lb s) * f (ub s) < Q2Qc 0 /\
  (0 <= iteration s)%Z /\
  (ub s - lb s) * Q2Qc (inject_Z (2 ^ iteration s)) = ub0 - lb0.

(** A linear target function [a * x + b]. *)
Definition linear (a b x : Qc) : Qc := a * x + b.

End ExactNotions.

(** * Part II.  Facts *)

(** ** Running loops: fuel, reachable locals, caps *)

Section WhileFacts.

Context {S R : Type}.
Variable cond : S -> bool.
Variable body : S -> py (ctl S R).

(** More fuel never changes a result already obtained. *)
Lemma while_more_fuel (n m : nat) (s : S) (r : py (S + R)) :
  while cond body s n = Some r -> (n <= m)%nat -> while cond body s m = Some r.
Proof.
  revert m s; induction n as [|n IH]; intros m s Hr Hle; [discriminate|].
  destruct m as [|m]; [lia|].
  simpl in *. destruct (cond s); [|exact Hr].
  destruct (body s) as [[s'|s'|r']|e]; try exact Hr.
  apply IH; [exact Hr | lia].
Qed.

Lemma while_returns (n : nat) (s : S) (r : py (S + R)) :
  while cond body s n = Some r -> returns (while cond body s) r.
Proof.
  intros Hr; exists n; intros fuel Hle; eapply while_more_fuel; eassumption.
Qed.

Lemma reach_trans (s0 s1 s2 : S) :
  reach cond body s0 s1 -> reach cond body s1 s2 -> reach cond body s0 s2.
Proof.
  intros H01 H12; induction H12 as [|s s' _ IH Hc Hb]; [exact H01|].
  eapply reach_pass; eassumption.
Qed.

(** A property kept by every pass holds of all reachable locals. *)
Lemma reach_invariant (P : S -> Prop) (s0 s : S) :
  P s0 ->
  (forall s1 s2 : S,
     P s1 -> cond s1 = true -> body s1 = Ret (Continue s2) -> P s2) ->
  reach cond body s0 s -> P s.
Proof.
  intros H0 Hstep; induction 1 as [|s1 s2 _ IH Hc Hb]; [exact H0|].
  exact (Hstep _ _ IH Hc Hb).
Qed.

(** From reachable locals the loop goes on as if started there. *)
Lemma reach_while (s0 s : S) :
  reach cond body s0 s ->
  exists k : nat, forall fuel : nat,
    while cond body s0 (k + fuel) = while cond body s fuel.
Proof.
  induction 1 as [|s s' _ [k IH] Hc Hb].
  - exists O; reflexivity.
  - exists (Datatypes.S k); intros fuel.
    replace (Datatypes.S k + fuel)%nat with (k + Datatypes.S fuel)%nat by lia.
    rewrite IH; simpl; rewrite Hc, Hb; reflexivity.
Qed.

Lemma reach_returns (s0 s : S) (r : py (S + R)) :
  reach cond body s0 s -> returns (while cond body s) r ->
  returns (while cond body s0) r.
Proof.
  intros Hreach [n Hn]; destruct (reach_while Hreach) as [k Hk].
  exists (k + n)%nat; intros fuel Hle.
  replace fuel with (k + (fuel - k))%nat by lia.
  rewrite Hk; apply Hn; lia.
Qed.

(** Every outcome of the loop comes from some reachable locals. *)
Lemma while_outcome (fuel : nat) (s0 : S) (r : py (S + R)) :
  while cond body s0 fuel = Some r ->
  exists s : S, reach cond body s0 s /\
    ((cond s = false /\ r = Ret (inl s)) \/
     (cond s = true /\
      match r with
      | Raise e => body s = Raise e
      | Ret (inl s') => body s = Ret (Break s')
      | Ret (inr v) => body s = Ret (Return v)
      end)).
Proof.
  revert s0; induction fuel as [|fuel IH]; intros s0 Hr; [discriminate|].
  simpl in Hr. destruct (cond s0) eqn:Hc.
  - destruct (body s0) as [[s'|s'|v]|e] eqn:Hb.
    + destruct (IH _ Hr) as [s [Hreach Hs]].
      exists s; split; [|exact Hs].
      eapply reach_trans; [|exact Hreach].
      eapply reach_pass; [apply reach_start | exact Hc | exact Hb].
    + injection Hr as <-. exists s0; split; [apply reach_start|right; auto].
    + injection Hr as <-. exists s0; split; [apply reach_start|right; auto].
    + injection Hr as <-. exists s0; split; [apply reach_start|right; auto].
  - injection Hr as <-. exists s0; split; [apply reach_start|left; auto].
Qed.

(** A pass that leaves the locals as they were goes on for ever. *)
Lemma while_stuck (s : S) :
  cond s = true -> body s = Ret (Continue s) -> diverges (while cond body s).
Proof.
  intros Hc Hb fuel; induction fuel as [|fuel IH]; [reflexivity|].
  simpl; rewrite Hc, Hb; exact IH.
Qed.

(** A loop that counts its passes in [count] and continues only while the
    count is at most [cap] has left after [cap - count + 1] tests. *)
Lemma while_capped (count : S -> Z) (cap : Z) :
  (forall s s' : S, body s = Ret (Continue s') ->
     count s' = (count s + 1)%Z /\ (count s' <= cap)%Z) ->
  forall (fuel : nat) (s : S),
    (Z.to_nat (cap - count s) + 1 <= fuel)%nat ->
    exists r : py (S + R), while cond body s fuel = Some r.
Proof.
  intros Hcount; induction fuel as [|fuel IH]; intros s Hfuel; [lia|].
  simpl. destruct (cond s); [|eauto].
  destruct (body s) as [[s'|s'|v]|e] eqn:Hb; eauto.
  destruct (Hcount _ _ Hb) as [Hs' Hle]. apply IH; lia.
Qed.

End WhileFacts.

Section AndThenFacts.

Context {S R : Type}.
Variable cond : S -> bool.
Variable body : S -> py (ctl S R).
Variable after : S -> R.

Lemma and_then_returns (loop : comp (py (S + R))) (r : py (S + R)) :
  returns loop r ->
  returns (and_then loop after)
    match r with
    | Raise e => Raise e
    | Ret (inl s) => Ret (after s)
    | Ret (inr v) => Ret v
    end.
Proof.
  intros [n Hn]; exists n; intros fuel Hle; unfold and_then.
  rewrite (Hn fuel Hle); destruct r as [[s|v]|e]; reflexivity.
Qed.

Lemma and_then_diverges (loop : comp (py (S + R))) :
  diverges loop -> diverges (and_then loop after).
Proof.
  intros Hd fuel; unfold and_then; rewrite Hd; reflexivity.
Qed.

Lemma and_then_some (loop : comp (py (S + R))) (fuel : nat) (o : py R) :
  and_then loop after fuel = Some o ->
  exists r : py (S + R), loop fuel = Some r /\
    o = match r with
        | Raise e => Raise e
        | Ret (inl s) => Ret (after s)
        | Ret (inr v) => Ret v
        end.
Proof.
  unfold and_then; destruct (loop fuel) as [[[s|v]|e]|]; intros Ho;
    try discriminate; injection Ho as <-; eexists; split; reflexivity.
Qed.

(** A pass that raises, or returns, at reachable locals is the outcome of
    the call. *)
Lemma and_then_while_raise (s0 s : S) (e : exn) :
  reach cond body s0 s -> cond s = true -> body s = Raise e ->
  returns (and_then (while cond body s0) after) (Raise e).
Proof.
  intros Hreach Hc Hb.
  apply (and_then_returns (r := Raise e)).
  apply (reach_returns Hreach).
  exists 1%nat; intros [|fuel] Hle; [lia|]; simpl; rewrite Hc, Hb; reflexivity.
Qed.

Lemma and_then_while_return (s0 s : S) (v : R) :
  reach cond body s0 s -> cond s = true -> body s = Ret (Return v) ->
  returns (and_then (while cond body s0) after) (Ret v).
Proof.
  intros Hreach Hc Hb.
  apply (and_then_returns (r := Ret (inr v))).
  apply (reach_returns Hreach).
  exists 1%nat; intros [|fuel] Hle; [lia|]; simpl; rewrite Hc, Hb; reflexivity.
Qed.

(** A result seen at some fuel is the result of the call. *)
Lemma and_then_while_at (s0 : S) (n : nat) (o : py R) :
  and_then (while cond body s0) after n = Some o ->
  returns (and_then (while cond body s0) after) o.
Proof.
  intros Ho; apply and_then_some in Ho; destruct Ho as [r [Hr ->]].
  apply and_then_returns; eapply while_returns; exact Hr.
Qed.

End AndThenFacts.

(** A computation has at most one result. *)
Lemma returns_unique {A : Type} (c : comp A) (a b : A) :
  returns c a -> returns c b -> a = b.
Proof.
  intros [n Hn] [m Hm].
  specialize (Hn (Nat.max n m) (Nat.le_max_l _ _)).
  specialize (Hm (Nat.max n m) (Nat.le_max_r _ _)).
  congruence.
Qed.

(** ** One pass of each refiner *)

Section PassFacts.

Context {num : Type} `{Number num}.

Local Open Scope num_scope.

Lemma pydiv_two (a : num) : pydiv a two = Ret (ndiv a two).
Proof. unfold pydiv; rewrite two_nonzero; reflexivity. Qed.

(** Inversion of [x <- a / b ;; k x]. *)
Lemma bind_pydiv_ret {A : Type} (a b : num) (k : num -> py A) (v : A) :
  bind (pydiv a b) k = Ret v -> (b =? zero) = false /\ k (ndiv a b) = Ret v.
Proof.
  unfold pydiv; destruct (b =? zero); [discriminate|]; simpl; auto.
Qed.

Variable f : num -> num.
Variable threshold : num.
Variable max_iterations : Z.

Lemma rebracket_cases (s : bracket_locals) (i : Z) (x : num) :
  (converged threshold (f x) = true /\
   rebracket f threshold max_iterations s i x = Ret (Return (Some x))) \/
  (converged threshold (f x) = false /\
   exists s' : bracket_locals, iteration s' = i /\
     ((i >? max_iterations)%Z = true /\
      rebracket f threshold max_iterations s i x = Ret (Break s') \/
      (i >? max_iterations)%Z = false /\
      rebracket f threshold max_iterations s i x = Ret (Continue s'))).
Proof.
  unfold rebracket. destruct (converged threshold (f x)); [left; auto|right].
  split; [reflexivity|].
  destruct (i >? max_iterations)%Z;
    destruct (f (lb s) * f x <? zero); [| destruct (f (ub s) * f x <? zero) | |
    destruct (f (ub s) * f x <? zero)];
    eexists; (split; [|first [left; split; reflexivity | right; split; reflexivity]]);
    reflexivity.
Qed.

Lemma rebracket_return (s : bracket_locals) (i : Z) (x : num)
  (v : option num) :
  rebracket f threshold max_iterations s i x = Ret (Return v) ->
  v = Some x /\ converged threshold (f x) = true.
Proof.
  destruct (rebracket_cases s i x)
    as [[Hc ->]|[_ [s' [_ [[_ ->]|[_ ->]]]]]]; intros Hv;
    [injection Hv as <-; auto | discriminate | discriminate].
Qed.

Lemma rebracket_continue (s s' : bracket_locals) (i : Z) (x : num) :
  rebracket f threshold max_iterations s i x = Ret (Continue s') ->
  iteration s' = i /\ (i <= max_iterations)%Z.
Proof.
  destruct (rebracket_cases s i x)
    as [[Hc ->]|[_ [s'' [Hi [[_ ->]|[Hcap ->]]]]]]; intros Hv;
    try discriminate.
  injection Hv as <-; split; [exact Hi|lia].
Qed.

Lemma rebracket_break (s s' : bracket_locals) (i : Z) (x : num) :
  rebracket f threshold max_iterations s i x = Ret (Break s') ->
  iteration s' = i /\ (max_iterations < i)%Z.
Proof.
  destruct (rebracket_cases s i x)
    as [[Hc ->]|[_ [s'' [Hi [[Hcap ->]|[_ ->]]]]]]; intros Hv;
    try discriminate.
  injection Hv as <-; split; [exact Hi|lia].
Qed.

Lemma rebracket_not_raise (s : bracket_locals) (i : Z) (x : num) (e : exn) :
  rebracket f threshold max_iterations s i x <> Raise e.
Proof.
  destruct (rebracket_cases s i x)
    as [[Hc ->]|[_ [s'' [Hi [[_ ->]|[Hcap ->]]]]]]; discriminate.
Qed.

End PassFacts.

(** ** Outcomes of a refiner

    Every refiner is [and_then (while cond body init) (fun _ => None)] for a
    body that counts its passes, returns only converged estimates and raises
    only in a division. *)

Section RefinerOutcome.

Context {num : Type} `{Number num}.
Context {S : Type}.

Variable f : num -> num.
Variable threshold : num.
Variable cond : S -> bool.
Variable body : S -> py (ctl S (option num)).
Variable count : S -> Z.
Variable cap : Z.
Variable divisor_zero : S -> Prop.

Hypothesis body_counts :
  forall s s' : S, body s = Ret (Continue s') ->
    count s' = (count s + 1)%Z /\ (count s' <= cap)%Z.
Hypothesis body_returns :
  forall (s : S) (v : option num), body s = Ret (Return v) ->
    exists x : num, v = Some x /\ converged threshold (f x) = true.
Hypothesis body_raises :
  forall (s : S) (e : exn), body s = Raise e -> divisor_zero s.

Lemma refiner_terminates (init : S) :
  exists o : py (option num),
    returns (and_then (while cond body init) (fun _ => None)) o.
Proof.
  destruct (while_capped cond body count body_counts
              (fuel := Z.to_nat (cap - count init) + 1) init (le_n _))
    as [r Hr].
  eexists; apply and_then_returns; eapply while_returns; exact Hr.
Qed.

Lemma refiner_outcome (init : S) (fuel : nat) (o : py (option num)) :
  and_then (while cond body init) (fun _ => None) fuel = Some o ->
  outcome_ok f threshold
    (exists s : S, reach cond body init s /\ cond s = true /\ divisor_zero s)
    o.
Proof.
  intros Ho; apply and_then_some in Ho; destruct Ho as [r [Hr ->]].
  apply while_outcome in Hr.
  destruct Hr as [s [Hreach [[_ ->]|[Hc Hb]]]]; [exact I|].
  destruct r as [[s'|v]|e]; simpl; [exact I| |].
  - destruct (body_returns Hb) as [x [-> Hx]]; exact Hx.
  - split; [destruct e; reflexivity|].
    exists s; repeat split; eauto.
Qed.

Lemma refiner_contract (init : S) :
  exists o : py (option num),
    returns (and_then (while cond body init) (fun _ => None)) o /\
    outcome_ok f threshold
      (exists s : S, reach cond body init s /\ cond s = true /\ divisor_zero s)
      o.
Proof.
  destruct (refiner_terminates init) as [o Ho]; exists o; split; [exact Ho|].
  destruct Ho as [n Hn]; exact (refiner_outcome init n (Hn n (le_n n))).
Qed.

End RefinerOutcome.

Section RefinerPasses.

Context {num : Type} `{Number num}.

Variable f : num -> num.
Variable threshold : num.
Variable max_iterations : Z.

Local Open Scope num_scope.

Local Ltac open_pass :=
  unfold pydiv; simpl;
  repeat match goal with
    | |- context [if ?b then _ else _] => destruct b eqn:?; simpl
    end;
  intros; try discriminate;
  repeat match goal with
    | E : Ret _ = Ret _ |- _ => injection E as <-
    end.

(** [bisection] *)

Lemma bisection_pass (s : bracket_locals) :
  bisection_body f threshold max_iterations s =
  rebracket f threshold max_iterations s (iteration s + 1)
    (ndiv (lb s + ub s) two).
Proof. unfold bisection_body; rewrite pydiv_two; reflexivity. Qed.

Lemma bisection_body_counts (s s' : bracket_locals) :
  bisection_body f threshold max_iterations s = Ret (Continue s') ->
  iteration s' = (iteration s + 1)%Z /\ (iteration s' <= max_iterations)%Z.
Proof.
  rewrite bisection_pass; intros Hs.
  apply rebracket_continue in Hs; destruct Hs as [-> Hle]; auto.
Qed.

Lemma bisection_body_returns (s : bracket_locals) (v : option num) :
  bisection_body f threshold max_iterations s = Ret (Return v) ->
  exists x : num, v = Some x /\ converged threshold (f x) = true.
Proof.
  rewrite bisection_pass; intros Hs.
  eexists; eapply rebracket_return; exact Hs.
Qed.

Lemma bisection_body_raises (s : bracket_locals) (e : exn) :
  bisection_body f threshold max_iterations s = Raise e -> False.
Proof. rewrite bisection_pass; apply rebracket_not_raise. Qed.

(** [false_position] *)

Lemma false_position_body_counts (s s' : bracket_locals) :
  false_position_body f threshold max_iterations s = Ret (Continue s') ->
  iteration s' = (iteration s + 1)%Z /\ (iteration s' <= max_iterations)%Z.
Proof.
  unfold false_position_body; intros Hs.
  apply bind_pydiv_ret in Hs; destruct Hs as [_ Hs].
  apply rebracket_continue in Hs; destruct Hs as [-> Hle]; auto.
Qed.

Lemma false_position_body_returns (s : bracket_locals) (v : option num) :
  false_position_body f threshold max_iterations s = Ret (Return v) ->
  exists x : num, v = Some x /\ converged threshold (f x) = true.
Proof.
  unfold false_position_body; intros Hs.
  apply bind_pydiv_ret in Hs; destruct Hs as [_ Hs].
  eexists; eapply rebracket_return; exact Hs.
Qed.

Lemma false_position_body_raises (s : bracket_locals) (e : exn) :
  false_position_body f threshold max_iterations s = Raise e <->
  (f (lb s) - f (ub s) =? zero) = true.
Proof.
  unfold false_position_body, pydiv.
  destruct (f (lb s) - f (ub s) =? zero); simpl.
  - destruct e; split; reflexivity.
  - split; [intros Hs; exfalso; eapply rebracket_not_raise; exact Hs
           | discriminate].
Qed.

(** [newton_raphson] *)

Variable f_der : num -> num.

Lemma newton_raphson_body_counts (s s' : newton_locals) :
  newton_raphson_body f f_der threshold max_iterations s = Ret (Continue s') ->
  nr_iteration s' = (nr_iteration s + 1)%Z /\
  (nr_iteration s' <= max_iterations)%Z.
Proof. unfold newton_raphson_body; open_pass; simpl; split; lia. Qed.

Lemma newton_raphson_body_returns (s : newton_locals) (v : option num) :
  newton_raphson_body f f_der threshold max_iterations s = Ret (Return v) ->
  exists x : num, v = Some x /\ converged threshold (f x) = true.
Proof. unfold newton_raphson_body; open_pass; eauto. Qed.

Lemma newton_raphson_body_raises (s : newton_locals) (e : exn) :
  newton_raphson_body f f_der threshold max_iterations s = Raise e <->
  (f_der (nr_x s) =? zero) = true.
Proof.
  unfold newton_raphson_body; destruct e; open_pass; split; intros;
    try discriminate; reflexivity.
Qed.

(** [secant] *)

Lemma secant_body_counts (s s' : secant_locals) :
  secant_body f threshold max_iterations s = Ret (Continue s') ->
  sec_iteration s' = (sec_iteration s + 1)%Z /\
  (sec_iteration s' <= max_iterations)%Z.
Proof. unfold secant_body; open_pass; simpl; split; lia. Qed.

Lemma secant_body_returns (s : secant_locals) (v : option num) :
  secant_body f threshold max_iterations s = Ret (Return v) ->
  exists x : num, v = Some x /\ converged threshold (f x) = true.
Proof. unfold secant_body; open_pass; eauto. Qed.

Lemma secant_body_raises (s : secant_locals) (e : exn) :
  secant_body f threshold max_iterations s = Raise e <->
  (f (x1 s) - f (x0 s) =? zero) = true.
Proof.
  unfold secant_body; destruct e; open_pass; split; intros;
    try discriminate; reflexivity.
Qed.

(** [modified_secant] *)

Variables x dx : num.

Lemma modified_secant_body_counts (i i' : Z) :
  modified_secant_body f x dx threshold max_iterations i = Ret (Continue i') ->
  i' = (i + 1)%Z /\ (i' <= max_iterations)%Z.
Proof. unfold modified_secant_body; open_pass; split; lia. Qed.

Lemma modified_secant_body_returns (i : Z) (v : option num) :
  modified_secant_body f x dx threshold max_iterations i = Ret (Return v) ->
  exists r : num, v = Some r /\ converged threshold (f r) = true.
Proof. unfold modified_secant_body; open_pass; eauto. Qed.

Lemma modified_secant_body_raises (i : Z) (e : exn) :
  modified_secant_body f x dx threshold max_iterations i = Raise e <->
  (f (x + dx) - f x =? zero) = true.
Proof.
  unfold modified_secant_body; destruct e; open_pass; split; intros;
    try discriminate; reflexivity.
Qed.

(** Every pass computes the one estimate. *)
Lemma modified_secant_pass (i : Z) :
  modified_secant_body f x dx threshold max_iterations i =
  bind (modified_secant_estimate f x dx) (fun r =>
    if converged threshold (f r) then Ret (Return (Some r))
    else if (i + 1 >? max_iterations)%Z then Ret (Break (i + 1)%Z)
    else Ret (Continue (i + 1)%Z)).
Proof.
  unfold modified_secant_body, modified_secant_estimate, pydiv.
  destruct (f (x + dx) - f x =? zero); reflexivity.
Qed.

End RefinerPasses.

Section ScanPass.

Context {num : Type} `{Number num}.

Local Open Scope num_scope.

Variable f : num -> num.
Variable increment_length : num.

(** A pass of the scan never leaves the loop by itself and moves the
    position by one increment. *)
Lemma incremental_search_body_continue (s : scan_locals) :
  exists s' : scan_locals,
    incremental_search_body f increment_length s = Ret (Continue s') /\
    scan_lb s' = scan_lb s + increment_length.
Proof. eexists; split; reflexivity. Qed.

End ScanPass.

(** ** Exact arithmetic *)

Section ExactFacts.

Local Open Scope Qc_scope.

Lemma Qcltb_lt (a b : Qc) : Qcltb a b = true <-> a < b.
Proof.
  unfold Qcltb, Qclt.
  rewrite negb_true_iff, <- not_true_iff_false, Qle_bool_iff.
  split; [apply Qnot_le_lt | apply Qlt_not_le].
Qed.

Lemma Qcleb_le (a b : Qc) : Qcleb a b = true <-> a <= b.
Proof. unfold Qcleb, Qcle; apply Qle_bool_iff. Qed.

Lemma Qc_eq_bool_eq (a b : Qc) : Qc_eq_bool a b = true <-> a = b.
Proof.
  split; [apply Qc_eq_bool_correct|]. intros ->. unfold Qc_eq_bool.
  destruct (Qc_eq_dec b b); congruence.
Qed.

(** The operations of [Qc] are those of [Q] on the underlying fractions. *)
Lemma this_Q2Qc (q : Q) : (this (Q2Qc q) == q)%Q.
Proof. apply Qred_correct. Qed.

Lemma this_plus (a b : Qc) : (this (a + b) == this a + this b)%Q.
Proof. apply Qred_correct. Qed.

Lemma this_opp (a : Qc) : (this (- a) == - this a)%Q.
Proof. apply Qred_correct. Qed.

Lemma this_minus (a b : Qc) : (this (a - b) == this a - this b)%Q.
Proof. unfold Qcminus; rewrite this_plus, this_opp; reflexivity. Qed.

Lemma this_mult (a b : Qc) : (this (a * b) == this a * this b)%Q.
Proof. apply Qred_correct. Qed.

Lemma this_half (a : Qc) : (this (Qcdiv a (Q2Qc 2)) == this a * (1 # 2))%Q.
Proof.
  unfold Qcdiv, Qcinv; rewrite this_mult, !this_Q2Qc; reflexivity.
Qed.

Lemma Qcminus_zero (a b : Qc) : a - b = Q2Qc 0 <-> a = b.
Proof.
  split; intros E.
  - apply Qc_is_canon.
    assert (E' : (this (a - b) == 0)%Q) by (rewrite E; reflexivity).
    rewrite this_minus in E'. lra.
  - subst; ring.
Qed.

(** The convergence test is [|y| < threshold]. *)
Lemma converged_Qcabs (threshold y : Qc) :
  converged threshold y = true <-> [y] < threshold.
Proof.
  unfold converged; simpl. rewrite andb_true_iff, !Qcltb_lt.
  unfold Qclt; rewrite this_opp.
  symmetry; apply Qabs_Qlt_condition.
Qed.

Lemma outcome_contract (f : Qc -> Qc) (threshold : Qc) (D D' : Prop)
  (o : py (option Qc)) :
  (D -> D') -> outcome_ok f threshold D o -> contract f threshold D' o.
Proof.
  intros HD; destruct o as [[r|]|e]; simpl; [|auto|tauto].
  apply converged_Qcabs.
Qed.

(** Some multiple of a positive step exceeds any distance. *)
Lemma Q_archimedean (d step : Q) :
  (0 < step)%Q -> exists n : nat, (d < inject_Z (Z.of_nat n) * step)%Q.
Proof.
  intros Hstep.
  exists (Z.to_nat (Z.max 0 (Qfloor (d / step) + 1))).
  rewrite Z2Nat.id by lia.
  assert (Hfl := Qlt_floor (d / step)).
  assert (Hmax : (inject_Z (Qfloor (d / step) + 1) <=
                  inject_Z (Z.max 0 (Qfloor (d / step) + 1)))%Q).
  { rewrite <- Zle_Qle; lia. }
  assert (E : (d == d / step * step)%Q) by (field; lra).
  set (z := inject_Z (Z.max 0 (Qfloor (d / step) + 1))) in *.
  set (q := (d / step)%Q) in *.
  apply Qle_lt_trans with (q * step)%Q; [rewrite <- E; apply Qle_refl|].
  apply Qmult_lt_compat_r; [exact Hstep | lra].
Qed.

Lemma same_result_eq (c : option (py (option Qc))) (o : py (option Qc)) :
  same_result c o = true -> c = Some o.
Proof.
  destruct c as [[[x|]|[]]|], o as [[y|]|[]]; simpl; try discriminate;
    try reflexivity.
  intros E; apply Qc_eq_bool_correct in E; subst; reflexivity.
Qed.

(** [run_returns n]: the call has the expected outcome, seen after [n] loop
    tests. *)
Lemma run_returns {S : Type} (cond : S -> bool)
  (body : S -> py (ctl S (option Qc))) (s0 : S) (n : nat)
  (o : py (option Qc)) :
  same_result (and_then (while cond body s0) (fun _ => None) n) o = true ->
  returns (and_then (while cond body s0) (fun _ => None)) o.
Proof.
  intros E; apply (and_then_while_at cond body (fun _ => None) s0 n).
  apply same_result_eq; exact E.
Qed.

End ExactFacts.

(** Order and equations of [Qc] as goals of [Q], for [lra]. *)
Ltac qc_to_q :=
  unfold Qclt, Qcle in *;
  repeat first
    [ rewrite this_half in * | rewrite this_plus in * | rewrite this_minus in *
    | rewrite this_mult in * | rewrite this_opp in * | rewrite this_Q2Qc in * ].

(** ** The result contract, refiner by refiner *)

Section ResultContract.

Local Open Scope Qc_scope.

Variables f f_der : Qc -> Qc.
Variables a b threshold : Qc.
Variable max_iterations : Z.

Lemma bisection_contract :
  exists o : py (option Qc),
    returns (bisection f a b threshold max_iterations) o /\
    contract f threshold False o.
Proof.
  destruct (refiner_contract f threshold bracket_cond
              (bisection_body f threshold max_iterations)
              iteration (fun _ => False)
              (@bisection_body_counts _ _ f threshold max_iterations)
              (@bisection_body_returns _ _ f threshold max_iterations)
              (@bisection_body_raises _ _ f threshold max_iterations)
              {| lb := a; ub := b; iteration := 0 |}) as [o [Hret Hok]].
  exists o; split; [exact Hret|].
  revert Hok; apply outcome_contract. intros [s [_ [_ []]]].
Qed.

Lemma false_position_contract :
  exists o : py (option Qc),
    returns (false_position f a b threshold max_iterations) o /\
    contract f threshold
      (exists s : bracket_locals,
         reach bracket_cond (false_position_body f threshold max_iterations)
           {| lb := a; ub := b; iteration := 0 |} s /\
         lb s <= ub s /\ f (lb s) = f (ub s)) o.
Proof.
  destruct (refiner_contract f threshold bracket_cond
              (false_position_body f threshold max_iterations)
              iteration (fun s => f (lb s) = f (ub s))
              (@false_position_body_counts _ _ f threshold max_iterations)
              (@false_position_body_returns _ _ f threshold max_iterations))
    with (init := {| lb := a; ub := b; iteration := 0 |}) as [o [Hret Hok]].
  - intros s e He. apply false_position_body_raises in He.
    apply Qc_eq_bool_eq in He; apply (proj1 (Qcminus_zero _ _)) in He.
    exact He.
  - exists o; split; [exact Hret|].
    revert Hok; apply outcome_contract. intros [s [Hreach [Hc Hz]]].
    exists s; repeat split; [exact Hreach| apply Qcleb_le; exact Hc |exact Hz].
Qed.

Lemma newton_raphson_contract :
  exists o : py (option Qc),
    returns (newton_raphson f f_der a threshold max_iterations) o /\
    contract f threshold
      (exists s : newton_locals,
         reach (fun _ => true)
           (newton_raphson_body f f_der threshold max_iterations)
           {| nr_x := a; nr_iteration := 0 |} s /\
         f_der (nr_x s) = Q2Qc 0) o.
Proof.
  destruct (refiner_contract f threshold (fun _ => true)
              (newton_raphson_body f f_der threshold max_iterations)
              nr_iteration (fun s => f_der (nr_x s) = Q2Qc 0)
              (@newton_raphson_body_counts _ _ f threshold max_iterations f_der)
              (@newton_raphson_body_returns _ _ f threshold max_iterations f_der))
    with (init := {| nr_x := a; nr_iteration := 0 |}) as [o [Hret Hok]].
  - intros s e He. apply newton_raphson_body_raises in He.
    apply Qc_eq_bool_eq in He; exact He.
  - exists o; split; [exact Hret|].
    revert Hok; apply outcome_contract. intros [s [Hreach [_ Hz]]]; eauto.
Qed.

Lemma secant_contract :
  exists o : py (option Qc),
    returns (secant f a b threshold max_iterations) o /\
    contract f threshold
      (exists s : secant_locals,
         reach (fun _ => true) (secant_body f threshold max_iterations)
           {| x0 := a; x1 := b; sec_iteration := 0 |} s /\
         f (x1 s) = f (x0 s)) o.
Proof.
  destruct (refiner_contract f threshold (fun _ => true)
              (secant_body f threshold max_iterations)
              sec_iteration (fun s => f (x1 s) = f (x0 s))
              (@secant_body_counts _ _ f threshold max_iterations)
              (@secant_body_returns _ _ f threshold max_iterations))
    with (init := {| x0 := a; x1 := b; sec_iteration := 0 |})
    as [o [Hret Hok]].
  - intros s e He. apply secant_body_raises in He.
    apply Qc_eq_bool_eq in He; apply (proj1 (Qcminus_zero _ _)) in He.
    exact He.
  - exists o; split; [exact Hret|].
    revert Hok; apply outcome_contract. intros [s [Hreach [_ Hz]]]; eauto.
Qed.

Lemma modified_secant_contract :
  exists o : py (option Qc),
    returns (modified_secant f a b threshold max_iterations) o /\
    contract f threshold (f (a + b) = f a) o.
Proof.
  destruct (refiner_contract f threshold (fun _ => true)
              (modified_secant_body f a b threshold max_iterations)
              (fun i => i) (fun _ => f (a + b) = f a)
              (@modified_secant_body_counts _ _ f threshold max_iterations a b)
              (@modified_secant_body_returns _ _ f threshold max_iterations a b))
    with (init := 0%Z) as [o [Hret Hok]].
  - intros s e He. apply modified_secant_body_raises in He.
    apply Qc_eq_bool_eq in He; apply (proj1 (Qcminus_zero _ _)) in He.
    exact He.
  - exists o; split; [exact Hret|].
    revert Hok; apply outcome_contract. intros [s [_ [_ Hz]]]; exact Hz.
Qed.

End ResultContract.

(** ** [modified_secant]: one estimate, tested at every pass *)

Section ModifiedSecant.

Context {num : Type} `{Number num}.

Variable f : num -> num.
Variables x dx threshold : num.

Lemma modified_secant_returns (max_iterations : Z) :
  returns (modified_secant f x dx threshold max_iterations)
          (single_shot f x dx threshold).
Proof.
  destruct (refiner_terminates (fun _ : Z => true)
              (modified_secant_body f x dx threshold max_iterations)
              (fun i => i)
              (@modified_secant_body_counts _ _ f threshold max_iterations x dx)
              0%Z) as [o Ho].
  replace (single_shot f x dx threshold) with o; [exact Ho|].
  destruct Ho as [n Hn]. specialize (Hn n (le_n n)).
  apply and_then_some in Hn; destruct Hn as [r [Hr ->]].
  apply while_outcome in Hr.
  destruct Hr as [i [_ [[Hc _]|[_ Hb]]]]; [discriminate|].
  rewrite modified_secant_pass in Hb. unfold single_shot.
  destruct (modified_secant_estimate f x dx) as [y|e]; simpl in *.
  - destruct (converged threshold (f y)).
    + destruct r as [[s|v]|e]; try discriminate. congruence.
    + destruct (i + 1 >? max_iterations)%Z, r as [[s|v]|e];
        try discriminate; reflexivity.
  - destruct r as [[s|v]|e']; try discriminate. congruence.
Qed.

End ModifiedSecant.

(** ** [newton_raphson]: the test follows the update *)

Section NewtonFirstStep.

Context {num : Type} `{Number num}.

Local Open Scope num_scope.

Variables f f_der : num -> num.
Variables x threshold : num.
Variable max_iterations : Z.

Lemma newton_raphson_first_raise :
  (f_der x =? zero) = true ->
  returns (newton_raphson f f_der x threshold max_iterations)
          (Raise ZeroDivisionError).
Proof.
  intros Hz; unfold newton_raphson.
  apply (and_then_while_raise (fun _ => None)
           (reach_start _ _ {| nr_x := x; nr_iteration := 0 |}));
    [reflexivity|].
  apply newton_raphson_body_raises; exact Hz.
Qed.

Lemma newton_raphson_first_return :
  (f_der x =? zero) = false ->
  converged threshold (f (x - ndiv (f x) (f_der x))) = true ->
  returns (newton_raphson f f_der x threshold max_iterations)
          (Ret (Some (x - ndiv (f x) (f_der x)))).
Proof.
  intros Hz Hc; unfold newton_raphson.
  apply (and_then_while_return (fun _ => None)
           (reach_start _ _ {| nr_x := x; nr_iteration := 0 |}));
    [reflexivity|].
  unfold newton_raphson_body, pydiv; simpl. rewrite Hz; simpl.
  rewrite Hc; reflexivity.
Qed.

Lemma newton_raphson_return_is_update (r : num) :
  returns (newton_raphson f f_der x threshold max_iterations)
          (Ret (Some r)) ->
  exists s : newton_locals,
    reach (fun _ => true)
      (newton_raphson_body f f_der threshold max_iterations)
      {| nr_x := x; nr_iteration := 0 |} s /\
    (f_der (nr_x s) =? zero) = false /\
    r = nr_x s - ndiv (f (nr_x s)) (f_der (nr_x s)) /\
    converged threshold (f r) = true.
Proof.
  intros [n Hn]. specialize (Hn n (le_n n)). unfold newton_raphson in Hn.
  apply and_then_some in Hn; destruct Hn as [o [Ho Heq]].
  apply while_outcome in Ho. destruct Ho as [s [Hreach Hs]].
  exists s; split; [exact Hreach|].
  destruct Hs as [[Hc _]|[_ Hb]]; [discriminate|].
  destruct o as [[s'|v]|e]; try discriminate.
  injection Heq as <-.
  unfold newton_raphson_body, pydiv in Hb.
  destruct (f_der (nr_x s) =? zero); [discriminate|]; simpl in Hb.
  destruct (converged threshold (f (nr_x s - ndiv (f (nr_x s)) (f_der (nr_x s)))))
    eqn:Hc.
  - injection Hb as <-; auto.
  - destruct (nr_iteration s + 1 >? max_iterations)%Z; discriminate.
Qed.

End NewtonFirstStep.

(** ** The scan of [incremental_search], in exact arithmetic *)

Section Scan.

Local Open Scope Qc_scope.

Variable f : Qc -> Qc.
Variables lb0 ub0 increment_length : Qc.

Lemma scan_leaves_within (n : nat) :
  Q2Qc 0 < increment_length ->
  forall s : scan_locals,
    ub0 - scan_lb s < Q2Qc (inject_Z (Z.of_nat n)) * increment_length ->
    exists r : py (scan_locals + (Z * list (list Qc))),
      while (incremental_search_cond ub0)
            (incremental_search_body f increment_length) s (Datatypes.S n)
      = Some r.
Proof.
  intros Hpos; induction n as [|n IH]; intros s Hn.
  - simpl. unfold incremental_search_cond; simpl.
    replace (Qcleb (scan_lb s) ub0) with false; [eauto|].
    symmetry; apply not_true_iff_false; rewrite Qcleb_le.
    apply Qclt_not_le. qc_to_q.
    change (inject_Z (Z.of_nat 0)) with 0%Q in Hn. lra.
  - cbn [while]. destruct (incremental_search_cond ub0 s); [|eauto].
    destruct (incremental_search_body_continue f increment_length s)
      as [s' [-> Hs']].
    apply IH. rewrite Hs'; simpl. qc_to_q.
    rewrite Nat2Z.inj_succ in Hn; unfold Z.succ in Hn.
    rewrite inject_Z_plus in Hn; change (inject_Z 1) with 1%Q in Hn.
    generalize dependent (inject_Z (Z.of_nat n)); intros i _ Hi.
    nra.
Qed.

Lemma scan_terminates :
  Q2Qc 0 < increment_length ->
  exists r : py (Z * list (list Qc)),
    returns (incremental_search f lb0 ub0 increment_length) r.
Proof.
  intros Hpos.
  destruct (@Q_archimedean (this (ub0 - lb0)) (this increment_length))
    as [n Hn].
  { qc_to_q; exact Hpos. }
  destruct (scan_leaves_within n Hpos
              {| scan_lb := lb0; number_of_roots := 0; intervals := [] |})
    as [r Hr].
  { simpl; unfold Qclt; rewrite this_mult, this_Q2Qc; exact Hn. }
  eexists; unfold incremental_search; apply and_then_returns.
  eapply while_returns; exact Hr.
Qed.

Lemma scan_goes_on (fuel : nat) :
  increment_length <= Q2Qc 0 ->
  forall s : scan_locals,
    scan_lb s <= ub0 ->
    while (incremental_search_cond ub0)
          (incremental_search_body f increment_length) s fuel = None.
Proof.
  intros Hneg; induction fuel as [|fuel IH]; intros s Hs; [reflexivity|].
  cbn [while].
  replace (incremental_search_cond ub0 s) with true
    by (symmetry; apply Qcleb_le; exact Hs).
  destruct (incremental_search_body_continue f increment_length s)
    as [s' [-> Hs']].
  apply IH; rewrite Hs'; simpl. qc_to_q; lra.
Qed.

Hypothesis positive_increment : Q2Qc 0 < increment_length.

Lemma scan_invariant_pass (s s' : scan_locals) :
  scan_invariant f lb0 ub0 increment_length s ->
  incremental_search_cond ub0 s = true ->
  incremental_search_body f increment_length s = Ret (Continue s') ->
  scan_invariant f lb0 ub0 increment_length s'.
Proof.
  intros [Hlb [Hcount Hall]] Hc Hb.
  apply Qcleb_le in Hc.
  unfold incremental_search_body in Hb.
  injection Hb as <-.
  assert (Hzero : forall iv : list Qc,
            iv = [scan_lb s - increment_length; scan_lb s + increment_length] ->
            neqb (f (scan_lb s)) zero = true ->
            emitted_interval f lb0 ub0 increment_length iv).
  { intros iv -> Hz; exists (scan_lb s); repeat split; try assumption.
    left; split; [apply Qc_eq_bool_eq; exact Hz | reflexivity]. }
  assert (Hsign : forall iv : list Qc,
            iv = [scan_lb s; scan_lb s + increment_length] ->
            nltb (nmul (f (scan_lb s)) (f (nadd (scan_lb s) increment_length)))
                 zero = true ->
            emitted_interval f lb0 ub0 increment_length iv).
  { intros iv -> Hz; exists (scan_lb s); repeat split; try assumption.
    right; split; [apply Qcltb_lt; exact Hz | reflexivity]. }
  assert (Hnext : lb0 <= scan_lb s + increment_length) by (qc_to_q; lra).
  unfold scan_invariant; simpl.
  destruct (Qc_eq_bool (f (scan_lb s)) (Q2Qc 0)) eqn:Hz;
    destruct (Qcltb (f (scan_lb s) * f (scan_lb s + increment_length))
                    (Q2Qc 0)) eqn:Hs;
    simpl; (split; [exact Hnext|]); split;
    rewrite ?length_app, ?Nat2Z.inj_add; simpl; try lia;
    repeat (apply Forall_app; split); try exact Hall;
    apply Forall_cons; try apply Forall_nil; eauto.
Qed.

Lemma scan_intervals :
  exists (n : Z) (l : list (list Qc)),
    returns (incremental_search f lb0 ub0 increment_length) (Ret (n, l)) /\
    n = Z.of_nat (length l) /\
    Forall (emitted_interval f lb0 ub0 increment_length) l.
Proof.
  destruct (scan_terminates positive_increment) as [r Hr].
  assert (Hr' := Hr). destruct Hr' as [k Hk]. specialize (Hk k (le_n k)).
  unfold incremental_search in Hk.
  apply and_then_some in Hk; destruct Hk as [o [Ho ->]].
  apply while_outcome in Ho; destruct Ho as [s [Hreach Hs]].
  assert (Hinv : scan_invariant f lb0 ub0 increment_length s).
  { refine (reach_invariant _ _ scan_invariant_pass Hreach).
    repeat split; [apply Qcle_refl | apply Forall_nil]. }
  destruct Hs as [[_ ->]|[_ Hb]].
  - exists (number_of_roots s), (intervals s).
    split; [exact Hr|]. destruct Hinv as [_ [Hcount Hall]]; auto.
  - destruct (incremental_search_body_continue f increment_length s)
      as [s' [Hs' _]].
    rewrite Hs' in Hb. destruct o as [[s''|v]|e]; discriminate.
Qed.

End Scan.

(** ** [bisection]: the bracket only narrows *)

Section BisectionBracket.

Local Open Scope Qc_scope.

Variable f : Qc -> Qc.
Variables lb0 ub0 threshold : Qc.
Variable max_iterations : Z.

Lemma midpoint_within (s : bracket_locals) :
  within_bracket lb0 ub0 s ->
  lb0 <= ndiv (nadd (lb s) (ub s)) two /\
  lb s <= ndiv (nadd (lb s) (ub s)) two /\
  ndiv (nadd (lb s) (ub s)) two <= ub s /\
  ndiv (nadd (lb s) (ub s)) two <= ub0.
Proof.
  intros [H1 [H2 H3]]; cbn [ndiv nadd two Qc_Number].
  repeat split; qc_to_q; lra.
Qed.

Lemma within_bracket_pass (s s' : bracket_locals) :
  within_bracket lb0 ub0 s -> bracket_cond s = true ->
  bisection_body f threshold max_iterations s = Ret (Continue s') ->
  within_bracket lb0 ub0 s'.
Proof.
  intros Hs _ Hb. destruct (midpoint_within Hs) as [Hm0 [Hlo [Hhi Hm1]]].
  destruct Hs as [H1 [H2 H3]].
  rewrite bisection_pass in Hb; unfold rebracket in Hb.
  destruct (converged _ _); [discriminate|].
  destruct (_ >? _)%Z; [discriminate|].
  destruct (nltb (nmul (f (lb s)) _) zero);
    [|destruct (nltb (nmul (f (ub s)) _) zero)];
    injection Hb as <-; unfold within_bracket; simpl;
    repeat split; assumption.
Qed.

Lemma reach_within_bracket (s : bracket_locals) :
  lb0 <= ub0 ->
  reach bracket_cond (bisection_body f threshold max_iterations)
    {| lb := lb0; ub := ub0; iteration := 0 |} s ->
  within_bracket lb0 ub0 s.
Proof.
  intros Hle; apply reach_invariant; [|exact within_bracket_pass].
  unfold within_bracket; simpl; repeat split;
    [apply Qcle_refl | exact Hle | apply Qcle_refl].
Qed.

Lemma reach_iteration_le (s : bracket_locals) :
  (0 <= max_iterations)%Z ->
  reach bracket_cond (bisection_body f threshold max_iterations)
    {| lb := lb0; ub := ub0; iteration := 0 |} s ->
  (iteration s <= max_iterations)%Z.
Proof.
  intros Hm Hreach.
  refine (@reach_invariant _ _ bracket_cond
            (bisection_body f threshold max_iterations)
            (fun s1 => (iteration s1 <= max_iterations)%Z)
            {| lb := lb0; ub := ub0; iteration := 0 |} s
            Hm _ Hreach).
  intros s1 s2 _ _ Hb. apply bisection_body_counts in Hb; tauto.
Qed.

Hypothesis ordered : lb0 <= ub0.
Hypothesis far_from_zero :
  forall x : Qc, lb0 <= x -> x <= ub0 -> threshold <= [f x].

(** With no midpoint within the threshold the loop leaves by its [break]. *)
Lemma bisection_leaves_by_break :
  exists s s' : bracket_locals,
    reach bracket_cond (bisection_body f threshold max_iterations)
      {| lb := lb0; ub := ub0; iteration := 0 |} s /\
    bisection_body f threshold max_iterations s = Ret (Break s') /\
    returns (while bracket_cond (bisection_body f threshold max_iterations)
               {| lb := lb0; ub := ub0; iteration := 0 |})
            (Ret (inl s')).
Proof.
  destruct (while_capped bracket_cond
              (bisection_body f threshold max_iterations) iteration
              (@bisection_body_counts _ _ f threshold max_iterations)
              (fuel := Z.to_nat (max_iterations - 0) + 1)
              {| lb := lb0; ub := ub0; iteration := 0 |} (le_n _)) as [r Hr].
  assert (Hret := while_returns _ _ _ _ Hr).
  apply while_outcome in Hr; destruct Hr as [s [Hreach Hs]].
  assert (Hin := reach_within_bracket ordered Hreach).
  destruct Hs as [[Hc _]|[_ Hb]].
  - exfalso. destruct Hin as [_ [Hle _]].
    apply Qcleb_le in Hle. unfold bracket_cond in Hc; simpl in Hc.
    congruence.
  - destruct r as [[s'|v]|e].
    + exists s, s'; auto.
    + exfalso. rewrite bisection_pass in Hb.
      apply rebracket_return in Hb; destruct Hb as [_ Hx].
      apply converged_Qcabs in Hx. revert Hx; apply Qcle_not_lt.
      destruct (midpoint_within Hin) as [Hm0 [_ [_ Hm1]]].
      apply far_from_zero; assumption.
    + exfalso; exact (bisection_body_raises _ _ _ _ Hb).
Qed.

Lemma bisection_never_converging :
  returns (bisection f lb0 ub0 threshold max_iterations) (Ret None).
Proof.
  destruct bisection_leaves_by_break as [s [s' [_ [_ Hret]]]].
  exact (and_then_returns (fun _ => None) Hret).
Qed.

(** ... after [max_iterations + 1] passes. *)
Lemma bisection_gives_up_after :
  (0 <= max_iterations)%Z ->
  exists s' : bracket_locals,
    returns (while bracket_cond (bisection_body f threshold max_iterations)
               {| lb := lb0; ub := ub0; iteration := 0 |})
            (Ret (inl s')) /\
    iteration s' = (max_iterations + 1)%Z.
Proof.
  intros Hm. destruct bisection_leaves_by_break as [s [s' [Hreach [Hb Hret]]]].
  exists s'; split; [exact Hret|].
  assert (Hle := reach_iteration_le Hm Hreach).
  rewrite bisection_pass in Hb. apply rebracket_break in Hb. lia.
Qed.

End BisectionBracket.

Section BisectionFirstMidpoint.

Local Open Scope Qc_scope.

Variable f : Qc -> Qc.
Variables lb0 ub0 threshold : Qc.
Variable max_iterations : Z.

Lemma bisection_first_midpoint :
  lb0 <= ub0 ->
  [f (Qcdiv (lb0 + ub0) (Q2Qc 2))] < threshold ->
  returns (bisection f lb0 ub0 threshold max_iterations)
          (Ret (Some (Qcdiv (lb0 + ub0) (Q2Qc 2)))).
Proof.
  intros Hle Hnear; unfold bisection.
  apply (and_then_while_return (fun _ => None)
           (reach_start _ _ {| lb := lb0; ub := ub0; iteration := 0 |})).
  - apply Qcleb_le; exact Hle.
  - rewrite bisection_pass; unfold rebracket; simpl.
    apply converged_Qcabs in Hnear; rewrite Hnear; reflexivity.
Qed.

End BisectionFirstMidpoint.

(** ** The step of [false_position] *)

Section FalsePositionStep.

Context {num : Type} `{Number num}.

Local Open Scope num_scope.

Variable f : num -> num.
Variables a b threshold : num.
Variable max_iterations : Z.

(** With a non-zero divisor the pass is the convergence test and the
    re-bracketing applied to the estimate. *)
Lemma false_position_pass (s : bracket_locals) :
  (f (lb s) - f (ub s) =? zero) = false ->
  false_position_body f threshold max_iterations s =
  rebracket f threshold max_iterations s (iteration s + 1)
    (false_position_estimate f s).
Proof.
  intros Hz; unfold false_position_body, false_position_estimate, pydiv.
  rewrite Hz; reflexivity.
Qed.

Lemma false_position_returns_estimate (s : bracket_locals) :
  reach bracket_cond (false_position_body f threshold max_iterations)
    {| lb := a; ub := b; iteration := 0 |} s ->
  bracket_cond s = true ->
  (f (lb s) - f (ub s) =? zero) = false ->
  converged threshold (f (false_position_estimate f s)) = true ->
  returns (false_position f a b threshold max_iterations)
          (Ret (Some (false_position_estimate f s))).
Proof.
  intros Hreach Hc Hz Hconv; unfold false_position.
  apply (and_then_while_return (fun _ => None) Hreach Hc).
  rewrite (false_position_pass _ Hz); unfold rebracket.
  rewrite Hconv; reflexivity.
Qed.

(** An estimate that misses the threshold, with the cap not yet exceeded,
    becomes an end of the next bracket, or leaves the bracket as it is. *)
Lemma false_position_next_bracket (s : bracket_locals) :
  reach bracket_cond (false_position_body f threshold max_iterations)
    {| lb := a; ub := b; iteration := 0 |} s ->
  bracket_cond s = true ->
  (f (lb s) - f (ub s) =? zero) = false ->
  converged threshold (f (false_position_estimate f s)) = false ->
  (iteration s + 1 <= max_iterations)%Z ->
  exists s' : bracket_locals,
    reach bracket_cond (false_position_body f threshold max_iterations)
      {| lb := a; ub := b; iteration := 0 |} s' /\
    iteration s' = (iteration s + 1)%Z /\
    ((lb s' = lb s /\ ub s' = false_position_estimate f s) \/
     (lb s' = false_position_estimate f s /\ ub s' = ub s) \/
     (lb s' = lb s /\ ub s' = ub s)).
Proof.
  intros Hreach Hc Hz Hconv Hcap.
  destruct (iteration s + 1 >? max_iterations)%Z eqn:Hgt;
    [apply Z.gtb_lt in Hgt; lia|].
  eexists; split.
  - eapply reach_pass; [exact Hreach | exact Hc |].
    rewrite (false_position_pass _ Hz); unfold rebracket.
    rewrite Hconv, Hgt; reflexivity.
  - destruct (f (lb s) * f (false_position_estimate f s) <? zero);
      [|destruct (f (ub s) * f (false_position_estimate f s) <? zero)];
      simpl; auto.
Qed.

Lemma false_position_return_is_estimate (r : num) :
  returns (false_position f a b threshold max_iterations) (Ret (Some r)) ->
  exists s : bracket_locals,
    reach bracket_cond (false_position_body f threshold max_iterations)
      {| lb := a; ub := b; iteration := 0 |} s /\
    bracket_cond s = true /\
    (f (lb s) - f (ub s) =? zero) = false /\
    r = false_position_estimate f s /\
    converged threshold (f r) = true.
Proof.
  intros [n Hn]. specialize (Hn n (le_n n)). unfold false_position in Hn.
  apply and_then_some in Hn; destruct Hn as [o [Ho Heq]].
  apply while_outcome in Ho. destruct Ho as [s [Hreach Hs]].
  exists s; split; [exact Hreach|].
  destruct Hs as [[Hc ->]|[Hc Hb]]; [discriminate|].
  destruct o as [[s'|v]|e]; try discriminate.
  injection Heq as <-. split; [exact Hc|].
  destruct (f (lb s) - f (ub s) =? zero) eqn:Hz.
  - apply (false_position_body_raises f threshold max_iterations s
             ZeroDivisionError) in Hz.
    rewrite Hz in Hb; discriminate.
  - rewrite (false_position_pass _ Hz) in Hb.
    apply rebracket_return in Hb; destruct Hb as [E Hconv].
    injection E as ->; auto.
Qed.

Lemma false_position_raise_is_zero_divisor (e : exn) :
  returns (false_position f a b threshold max_iterations) (Raise e) ->
  exists s : bracket_locals,
    reach bracket_cond (false_position_body f threshold max_iterations)
      {| lb := a; ub := b; iteration := 0 |} s /\
    bracket_cond s = true /\
    (f (lb s) - f (ub s) =? zero) = true.
Proof.
  intros [n Hn]. specialize (Hn n (le_n n)). unfold false_position in Hn.
  apply and_then_some in Hn; destruct Hn as [o [Ho Heq]].
  apply while_outcome in Ho. destruct Ho as [s [Hreach Hs]].
  exists s; split; [exact Hreach|].
  destruct Hs as [[Hc ->]|[Hc Hb]]; [discriminate|].
  destruct o as [[s'|v]|e']; try discriminate.
  split; [exact Hc|].
  apply (false_position_body_raises f threshold max_iterations s e').
  exact Hb.
Qed.

End FalsePositionStep.

(** ** The iterates [newton_raphson] steps from *)

Section NewtonSteps.

Context {num : Type} `{Number num}.

Local Open Scope num_scope.

Variables f f_der : num -> num.
Variables x threshold : num.
Variable max_iterations : Z.

Lemma newton_raphson_raise_is_zero_derivative (e : exn) :
  returns (newton_raphson f f_der x threshold max_iterations) (Raise e) ->
  exists s : newton_locals,
    reach (fun _ => true)
      (newton_raphson_body f f_der threshold max_iterations)
      {| nr_x := x; nr_iteration := 0 |} s /\
    (f_der (nr_x s) =? zero) = true.
Proof.
  intros [n Hn]. specialize (Hn n (le_n n)). unfold newton_raphson in Hn.
  apply and_then_some in Hn; destruct Hn as [o [Ho Heq]].
  apply while_outcome in Ho. destruct Ho as [s [Hreach Hs]].
  exists s; split; [exact Hreach|].
  destruct Hs as [[Hc _]|[_ Hb]]; [discriminate|].
  destruct o as [[s'|v]|e']; try discriminate.
  apply (newton_raphson_body_raises f threshold max_iterations f_der s e').
  exact Hb.
Qed.

(** The pass from [s] goes on to the next one exactly when the divisor is
    not zero, the update misses the threshold and the count stays within
    the cap. *)
Lemma newton_raphson_body_continue (s s' : newton_locals) :
  newton_raphson_body f f_der threshold max_iterations s = Ret (Continue s')
  <->
  (f_der (nr_x s) =? zero) = false /\
  converged threshold
    (f (nr_x s - ndiv (f (nr_x s)) (f_der (nr_x s)))) = false /\
  (nr_iteration s + 1 <= max_iterations)%Z /\
  s' = {| nr_x := nr_x s - ndiv (f (nr_x s)) (f_der (nr_x s));
          nr_iteration := nr_iteration s + 1 |}.
Proof.
  unfold newton_raphson_body, pydiv.
  destruct (f_der (nr_x s) =? zero); simpl;
    [split; [discriminate | intros [E _]; discriminate]|].
  destruct (converged threshold
              (f (nr_x s - ndiv (f (nr_x s)) (f_der (nr_x s)))));
    [split; [discriminate | intros [_ [E _]]; discriminate]|].
  destruct (nr_iteration s + 1 >? max_iterations)%Z eqn:Hgt.
  - apply Z.gtb_lt in Hgt.
    split; [discriminate | intros [_ [_ [Hle _]]]; lia].
  - assert (Hle : (nr_iteration s + 1 <= max_iterations)%Z).
    { destruct (Z.gtb_spec (nr_iteration s + 1) max_iterations);
        [discriminate | assumption]. }
    split.
    + intros E; injection E as <-; auto.
    + intros [_ [_ [_ ->]]]; reflexivity.
Qed.

End NewtonSteps.

(** * Part III.  The properties of the specification *)

(** C1. Uniform result contract: each of the five refiners terminates, for
    every target function, threshold and iteration cap, with a numeric
    estimate [r] such that [|f r| < threshold] or with the not-found signal
    [None]; the only other outcome is the [ZeroDivisionError] of a division
    whose divisor is zero at locals the loop has reached ([bisection] has
    none), so that running into the iteration cap gives [None] and never an
    exception. *)
Theorem refiners_result_contract
  (f f_der : Qc -> Qc) (a b threshold : Qc) (max_iterations : Z) :
  (exists o : py (option Qc),
     returns (bisection f a b threshold max_iterations) o /\
     contract f threshold False o) /\
  (exists o : py (option Qc),
     returns (false_position f a b threshold max_iterations) o /\
     contract f threshold
       (exists s : bracket_locals,
          reach bracket_cond (false_position_body f threshold max_iterations)
            {| lb := a; ub := b; iteration := 0 |} s /\
          (lb s <= ub s)%Qc /\ f (lb s) = f (ub s)) o) /\
  (exists o : py (option Qc),
     returns (newton_raphson f f_der a threshold max_iterations) o /\
     contract f threshold
       (exists s : newton_locals,
          reach (fun _ => true)
            (newton_raphson_body f f_der threshold max_iterations)
            {| nr_x := a; nr_iteration := 0 |} s /\
          f_der (nr_x s) = Q2Qc 0) o) /\
  (exists o : py (option Qc),
     returns (secant f a b threshold max_iterations) o /\
     contract f threshold
       (exists s : secant_locals,
          reach (fun _ => true) (secant_body f threshold max_iterations)
            {| x0 := a; x1 := b; sec_iteration := 0 |} s /\
          f (x1 s) = f (x0 s)) o) /\
  (exists o : py (option Qc),
     returns (modified_secant f a b threshold max_iterations) o /\
     contract f threshold (f (a + b)%Qc = f a) o).
Proof.
  split; [apply bisection_contract|].
  split; [apply false_position_contract|].
  split; [apply newton_raphson_contract|].
  split; [apply secant_contract | apply modified_secant_contract].
Qed.

(** C2, as stated, fails on the code.  For [f x = x^2] scanned over
    [[0, 0]] with step [1] the position [0] is an exact zero, the scan
    returns the single interval [[-1, 1]], and [f(-1)*f(1) = 1 > 0]. *)
Lemma incremental_search_zero_hit_not_bracket :
  (Q2Qc 0 <= Q2Qc 0)%Qc /\ (Q2Qc 0 < Q2Qc 1)%Qc /\
  returns (incremental_search (fun x : Qc => (x * x)%Qc)
             (Q2Qc 0) (Q2Qc 0) (Q2Qc 1))
          (Ret (1%Z, [[Q2Qc (-1); Q2Qc 1]])) /\
  ~ ((fun x : Qc => (x * x)%Qc) (Q2Qc (-1)) *
     (fun x : Qc => (x * x)%Qc) (Q2Qc 1) <= Q2Qc 0)%Qc.
Proof.
  split; [vm_compute; discriminate|]. split; [vm_compute; reflexivity|].
  split.
  - apply (and_then_while_at _ _ _ _ 2); vm_compute; reflexivity.
  - vm_compute; intros Hle; apply Hle; reflexivity.
Qed.

(** C2, amended.  For a positive [increment_length] the scan returns a count
    and a list of that length, and every interval of the list is, for some
    position [x] with [lb <= x <= ub], either [[x, x + increment_length]]
    with [f(x)*f(x + increment_length) < 0] (a strict change of sign across
    it) or [[x - increment_length, x + increment_length]] with [f x = 0] (an
    exact zero at its centre; its endpoints need not bracket a change of
    sign). *)
Theorem incremental_search_intervals
  (f : Qc -> Qc) (lb0 ub0 increment_length : Qc) :
  (Q2Qc 0 < increment_length)%Qc ->
  exists (n : Z) (l : list (list Qc)),
    returns (incremental_search f lb0 ub0 increment_length) (Ret (n, l)) /\
    n = Z.of_nat (length l) /\
    forall iv : list Qc, In iv l ->
      exists x : Qc, (lb0 <= x)%Qc /\ (x <= ub0)%Qc /\
        ((f x = Q2Qc 0 /\
          iv = [(x - increment_length)%Qc; (x + increment_length)%Qc]) \/
         ((f x * f (x + increment_length) < Q2Qc 0)%Qc /\
          iv = [x; (x + increment_length)%Qc])).
Proof.
  intros Hpos.
  destruct (scan_intervals f lb0 ub0 Hpos) as [n [l [Hret [Hn Hall]]]].
  exists n, l; split; [exact Hret|]; split; [exact Hn|].
  intros iv Hin. rewrite Forall_forall in Hall. exact (Hall iv Hin).
Qed.

Lemma incremental_search_intervals_witness :
  exists (n : Z) (l : list (list Qc)),
    returns (incremental_search sample_f (Q2Qc (-4)) (Q2Qc 8) (Q2Qc (4 # 5)))
            (Ret (n, l)) /\
    n = Z.of_nat (length l) /\
    forall iv : list Qc, In iv l ->
      exists x : Qc, (Q2Qc (-4) <= x)%Qc /\ (x <= Q2Qc 8)%Qc /\
        ((sample_f x = Q2Qc 0 /\
          iv = [(x - Q2Qc (4 # 5))%Qc; (x + Q2Qc (4 # 5))%Qc]) \/
         ((sample_f x * sample_f (x + Q2Qc (4 # 5)) < Q2Qc 0)%Qc /\
          iv = [x; (x + Q2Qc (4 # 5))%Qc])).
Proof.
  apply (@incremental_search_intervals
           sample_f (Q2Qc (-4)) (Q2Qc 8) (Q2Qc (4 # 5))).
  vm_compute; reflexivity.
Defined.

(** C3. [modified_secant] makes no progress: every pass of its loop, whatever
    the iteration count [i], recomputes the one estimate
    [x = x0 - f(x0)*dx/(f(x0+dx)-f(x0))] and tests it; the call returns that
    estimate when [-threshold < f x < threshold] and the not-found signal
    otherwise (a zero divisor raises at the first pass), and the result is
    the same for every [max_iterations]. *)
Theorem modified_secant_no_progress {num : Type} `{Number num}
  (f : num -> num) (x dx threshold : num) (max_iterations : Z) :
  (forall i : Z,
     modified_secant_body f x dx threshold max_iterations i =
     bind (modified_secant_estimate f x dx) (fun r =>
       if converged threshold (f r) then Ret (Return (Some r))
       else if (i + 1 >? max_iterations)%Z then Ret (Break (i + 1)%Z)
       else Ret (Continue (i + 1)%Z))) /\
  returns (modified_secant f x dx threshold max_iterations)
    (bind (modified_secant_estimate f x dx) (fun r =>
       Ret (if converged threshold (f r) then Some r else None))) /\
  (forall (max_iterations' : Z) (o : py (option num)),
     returns (modified_secant f x dx threshold max_iterations) o <->
     returns (modified_secant f x dx threshold max_iterations') o).
Proof.
  split; [intros i; apply modified_secant_pass|].
  split; [apply modified_secant_returns|].
  intros m' o; split; intros Ho.
  - rewrite (returns_unique Ho
               (modified_secant_returns f x dx threshold max_iterations)).
    apply modified_secant_returns.
  - rewrite (returns_unique Ho (modified_secant_returns f x dx threshold m')).
    apply modified_secant_returns.
Qed.

(** C4.  The code runs one iteration more than the bound says ("at most
    [max_iterations] midpoints", the docstring's "maximum number of
    iterations").  The cap is tested with [iteration > max_iterations] after
    the pass, so [max_iterations + 1] midpoints are examined: with [max_iterations = 1] the root [1/4] of
    [x - 1/4] on [[0, 1]] is found at the second midpoint; with
    [max_iterations = 0] the root [1/2] of [x - 1/2] is found at a first
    midpoint; and whenever no midpoint converges on a bracket [lb <= ub],
    the loop gives up with [iteration = max_iterations + 1]. *)
Theorem bisection_examines_one_more_midpoint :
  returns (bisection (fun x : Qc => (x - Q2Qc (1 # 4))%Qc) (Q2Qc 0) (Q2Qc 1)
             default_threshold 1)
          (Ret (Some (Q2Qc (1 # 4)))) /\
  returns (bisection (fun x : Qc => (x - Q2Qc (1 # 2))%Qc) (Q2Qc 0) (Q2Qc 1)
             default_threshold 0)
          (Ret (Some (Q2Qc (1 # 2)))) /\
  (forall (f : Qc -> Qc) (lb0 ub0 threshold : Qc) (max_iterations : Z),
     (0 <= max_iterations)%Z -> (lb0 <= ub0)%Qc ->
     (forall x : Qc, (lb0 <= x)%Qc -> (x <= ub0)%Qc ->
        (threshold <= [f x])%Qc) ->
     exists s : bracket_locals,
       returns (while bracket_cond
                  (bisection_body f threshold max_iterations)
                  {| lb := lb0; ub := ub0; iteration := 0 |})
               (Ret (inl s)) /\
       iteration s = (max_iterations + 1)%Z).
Proof.
  split; [apply (run_returns _ _ _ 2); vm_compute; reflexivity|].
  split; [apply (run_returns _ _ _ 1); vm_compute; reflexivity|].
  intros f lb0 ub0 threshold m Hm Hle Hfar.
  apply bisection_gives_up_after; assumption.
Qed.

(** [f x = x^2 + 1] on [[-1, 1]] with the default cap of 100: the loop gives
    up at [iteration = 101]. *)
Lemma bisection_examines_one_more_midpoint_witness :
  exists s : bracket_locals,
    returns (while bracket_cond
               (bisection_body (fun x : Qc => (x * x + Q2Qc 1)%Qc)
                  default_threshold default_max_iterations)
               {| lb := Q2Qc (-1); ub := Q2Qc 1; iteration := 0 |})
            (Ret (inl s)) /\
    iteration s = 101%Z.
Proof.
  apply (proj2 (proj2 bisection_examines_one_more_midpoint)
           (fun x : Qc => (x * x + Q2Qc 1)%Qc) (Q2Qc (-1)) (Q2Qc 1)
           default_threshold default_max_iterations).
  - vm_compute; discriminate.
  - vm_compute; discriminate.
  - intros x _ _. apply Qcle_trans with (x * x + Q2Qc 1)%Qc;
      [|apply Qcle_Qcabs].
    unfold default_threshold; qc_to_q; nra.
Defined.

(** C5, as stated, fails on binary64 floats, the numbers the code is
    annotated with.  For [f x = x*x*1e200] on the bracket [[-1e200, 1e200]]
    both [f(lb)] and [f(ub)] are [+infinity], so [f(lb) == f(ub)] holds; but
    the divisor [f(lb) - f(ub)] is a NaN, which does not compare equal to
    zero: no [ZeroDivisionError] is raised, the estimate is a NaN at every
    pass, and the call ends with the not-found signal. *)
Lemma false_position_equal_infinite_values :
  let f := fun x : float => (x * x * 1e200)%float in
  ((-1e200) <=? 1e200)%float = true /\
  (f (-1e200) =? f 1e200)%float = true /\
  returns (false_position f (-1e200)%float 1e200%float 0.001%float 100)
          (Ret None).
Proof.
  cbv zeta; split; [vm_compute; reflexivity|].
  split; [vm_compute; reflexivity|].
  apply (and_then_while_at _ _ _ _ 102); vm_compute; reflexivity.
Qed.

(** C5, amended.  The step of [false_position] and its failure mode, for
    every kind of number: at a bracket [s] the loop comes to (with
    [lb <= ub]) and a divisor [f(lb) - f(ub)] that does not compare equal to
    zero, the estimate is [x_r = ub - f(ub)*(lb-ub)/(f(lb)-f(ub))]; it is
    returned when it meets the threshold, and otherwise, the cap allowing,
    it becomes an end of the next bracket or leaves the bracket unchanged;
    every number the call returns is the estimate of such a bracket; and the
    call ends in [ZeroDivisionError] exactly when the divisor compares equal
    to zero at such a bracket.  In exact arithmetic that is the case
    whenever [f(lb) = f(ub)] there. *)
Theorem false_position_step_and_failure :
  (forall (num : Type) (N : Number num) (f : num -> num)
          (a b threshold : num) (max_iterations : Z),
     (forall s : bracket_locals,
        reach bracket_cond (false_position_body f threshold max_iterations)
          {| lb := a; ub := b; iteration := 0 |} s ->
        bracket_cond s = true ->
        (f (lb s) - f (ub s) =? zero)%num = false ->
        (converged threshold (f (false_position_estimate f s)) = true ->
         returns (false_position f a b threshold max_iterations)
                 (Ret (Some (false_position_estimate f s)))) /\
        (converged threshold (f (false_position_estimate f s)) = false ->
         (iteration s + 1 <= max_iterations)%Z ->
         exists s' : bracket_locals,
           reach bracket_cond
             (false_position_body f threshold max_iterations)
             {| lb := a; ub := b; iteration := 0 |} s' /\
           iteration s' = (iteration s + 1)%Z /\
           ((lb s' = lb s /\ ub s' = false_position_estimate f s) \/
            (lb s' = false_position_estimate f s /\ ub s' = ub s) \/
            (lb s' = lb s /\ ub s' = ub s)))) /\
     (forall r : num,
        returns (false_position f a b threshold max_iterations)
                (Ret (Some r)) ->
        exists s : bracket_locals,
          reach bracket_cond (false_position_body f threshold max_iterations)
            {| lb := a; ub := b; iteration := 0 |} s /\
          bracket_cond s = true /\
          (f (lb s) - f (ub s) =? zero)%num = false /\
          r = false_position_estimate f s /\
          converged threshold (f r) = true) /\
     (returns (false_position f a b threshold max_iterations)
              (Raise ZeroDivisionError) <->
      exists s : bracket_locals,
        reach bracket_cond (false_position_body f threshold max_iterations)
          {| lb := a; ub := b; iteration := 0 |} s /\
        bracket_cond s = true /\
        (f (lb s) - f (ub s) =? zero)%num = true)) /\
  (forall (f : Qc -> Qc) (a b threshold : Qc) (max_iterations : Z)
          (s : bracket_locals),
     reach bracket_cond (false_position_body f threshold max_iterations)
       {| lb := a; ub := b; iteration := 0 |} s ->
     (lb s <= ub s)%Qc ->
     f (lb s) = f (ub s) ->
     returns (false_position f a b threshold max_iterations)
             (Raise ZeroDivisionError)).
Proof.
  split.
  - intros num N f a b threshold max_iterations.
    split; [|split].
    + intros s Hreach Hc Hz; split.
      * apply false_position_returns_estimate; assumption.
      * apply false_position_next_bracket; assumption.
    + apply false_position_return_is_estimate.
    + split.
      * apply false_position_raise_is_zero_divisor.
      * intros [s [Hreach [Hc Hz]]]; unfold false_position.
        apply (and_then_while_raise (fun _ => None) Hreach Hc).
        apply false_position_body_raises; exact Hz.
  - intros f a b threshold max_iterations s Hreach Hle Hf.
    unfold false_position.
    apply (and_then_while_raise (fun _ => None) Hreach).
    + apply Qcleb_le; exact Hle.
    + apply false_position_body_raises.
      apply Qc_eq_bool_eq, Qcminus_zero; exact Hf.
Qed.

(** For [f x = x^2 - 1] on the bracket [[-2, 2]], [f(-2) = f(2) = 3]; for
    [f x = x - 1/4] on [[0, 1]] the first estimate is the root. *)
Lemma false_position_step_and_failure_witness :
  returns (false_position (fun x : Qc => (x * x - Q2Qc 1)%Qc)
             (Q2Qc (-2)) (Q2Qc 2) default_threshold default_max_iterations)
          (Raise ZeroDivisionError) /\
  returns (false_position (fun x : Qc => (x - Q2Qc (1 # 4))%Qc)
             (Q2Qc 0) (Q2Qc 1) default_threshold default_max_iterations)
          (Ret (Some (false_position_estimate
                        (fun x : Qc => (x - Q2Qc (1 # 4))%Qc)
                        {| lb := Q2Qc 0; ub := Q2Qc 1; iteration := 0 |}))).
Proof.
  split.
  - refine (proj2 false_position_step_and_failure
              (fun x : Qc => (x * x - Q2Qc 1)%Qc) (Q2Qc (-2)) (Q2Qc 2)
              default_threshold default_max_iterations
              _ (reach_start _ _ _) _ _).
    + vm_compute; discriminate.
    + apply Qc_is_canon; reflexivity.
  - refine (proj1 (proj1 (proj1 false_position_step_and_failure
                            Qc Qc_Number
                            (fun x : Qc => (x - Q2Qc (1 # 4))%Qc)
                            (Q2Qc 0) (Q2Qc 1)
                            default_threshold default_max_iterations)
                      _ (reach_start _ _ _) _ _) _);
      vm_compute; reflexivity.
Defined.

(** C6, as stated, fails on the code: [f_der] is evaluated only at an
    iterate from which a step is taken.  With [f x = x^2 + 1/2500],
    [f_der x = 2x] and [x0 = 1/50] the first update lands on the stationary
    point [0], where [|f 0| = 1/2500] meets the threshold [1/1000]: the call
    returns [0].  With [f x = x^2 + 1], [x0 = 1] and [max_iterations = 0]
    the first update lands on [0] as well, misses the threshold, and the cap
    ends the loop: the call returns the not-found signal. *)
Lemma newton_raphson_stationary_iterate_not_examined :
  let f_der := fun x : Qc => (Q2Qc 2 * x)%Qc in
  f_der (Q2Qc 0) = Q2Qc 0 /\
  (let f := fun x : Qc => (x * x + Q2Qc (1 # 2500))%Qc in
   (Q2Qc (1 # 50) - f (Q2Qc (1 # 50)) / f_der (Q2Qc (1 # 50)))%Qc = Q2Qc 0 /\
   returns (newton_raphson f f_der (Q2Qc (1 # 50)) default_threshold
              default_max_iterations)
           (Ret (Some (Q2Qc 0)))) /\
  (let f := fun x : Qc => (x * x + Q2Qc 1)%Qc in
   (Q2Qc 1 - f (Q2Qc 1) / f_der (Q2Qc 1))%Qc = Q2Qc 0 /\
   returns (newton_raphson f f_der (Q2Qc 1) default_threshold 0)
           (Ret None)).
Proof.
  cbv zeta; split; [apply Qc_is_canon; vm_compute; reflexivity|].
  split; (split; [apply Qc_is_canon; vm_compute; reflexivity|]).
  - apply (run_returns _ _ _ 1); vm_compute; reflexivity.
  - apply (run_returns _ _ _ 1); vm_compute; reflexivity.
Qed.

(** C6, amended.  Newton-Raphson at a zero derivative, for every kind of
    number: the call ends in [ZeroDivisionError], neither in a number nor in
    the not-found signal, exactly when [f_der] compares equal to zero at an
    iterate from which the loop takes a step.  Those iterates are the
    initial guess and every update [x - f(x)/f_der(x)] of such an iterate
    that misses the threshold while the count of passes is still within
    [max_iterations]; the iterate that is returned and the one the cap stops
    at are not among them. *)
Theorem newton_raphson_zero_derivative {num : Type} `{Number num}
  (f f_der : num -> num) (x threshold : num) (max_iterations : Z) :
  (returns (newton_raphson f f_der x threshold max_iterations)
           (Raise ZeroDivisionError) <->
   exists s : newton_locals,
     reach (fun _ => true)
       (newton_raphson_body f f_der threshold max_iterations)
       {| nr_x := x; nr_iteration := 0 |} s /\
     (f_der (nr_x s) =? zero)%num = true) /\
  (forall s : newton_locals,
     reach (fun _ => true)
       (newton_raphson_body f f_der threshold max_iterations)
       {| nr_x := x; nr_iteration := 0 |} s <->
     s = {| nr_x := x; nr_iteration := 0 |} \/
     exists s0 : newton_locals,
       reach (fun _ => true)
         (newton_raphson_body f f_der threshold max_iterations)
         {| nr_x := x; nr_iteration := 0 |} s0 /\
       (f_der (nr_x s0) =? zero)%num = false /\
       converged threshold
         (f (nr_x s0 - ndiv (f (nr_x s0)) (f_der (nr_x s0)))%num) = false /\
       (nr_iteration s0 + 1 <= max_iterations)%Z /\
       s = {| nr_x := (nr_x s0 - ndiv (f (nr_x s0)) (f_der (nr_x s0)))%num;
              nr_iteration := nr_iteration s0 + 1 |}).
Proof.
  split.
  - split.
    + apply newton_raphson_raise_is_zero_derivative.
    + intros [s [Hreach Hz]]; unfold newton_raphson.
      apply (and_then_while_raise (fun _ => None) Hreach); [reflexivity|].
      apply newton_raphson_body_raises; exact Hz.
  - intros s; split.
    + intros Hreach; destruct Hreach as [|s0 s' Hreach _ Hb];
        [left; reflexivity|].
      right; exists s0; split; [exact Hreach|].
      apply newton_raphson_body_continue; exact Hb.
    + intros [->|[s0 [Hreach Hstep]]]; [apply reach_start|].
      eapply reach_pass; [exact Hreach | reflexivity |].
      apply newton_raphson_body_continue; exact Hstep.
Qed.

(** For [f x = x^2 + 1] and [x0 = 1] the first step lands on the stationary
    point [0], and the second pass divides by [f_der 0 = 0]. *)
Lemma newton_raphson_zero_derivative_witness :
  returns (newton_raphson (fun x : Qc => (x * x + Q2Qc 1)%Qc)
             (fun x : Qc => (Q2Qc 2 * x)%Qc) (Q2Qc 1)
             default_threshold default_max_iterations)
          (Raise ZeroDivisionError).
Proof.
  apply (proj2 (proj1 (@newton_raphson_zero_derivative Qc Qc_Number
                         (fun x : Qc => (x * x + Q2Qc 1)%Qc)
                         (fun x : Qc => (Q2Qc 2 * x)%Qc) (Q2Qc 1)
                         default_threshold default_max_iterations))).
  eexists; split.
  - eapply reach_pass;
      [apply reach_start | reflexivity | vm_compute; reflexivity].
  - vm_compute; reflexivity.
Defined.

(** C7, as stated, fails on binary64 floats, the numbers the code is
    annotated with: with [lb = 2^53], [ub = 2^53 + 2] and
    [increment_length = 1] (all finite, [lb <= ub], [increment_length > 0])
    the sum [lb + increment_length] rounds back to [lb], every pass leaves
    the locals as they were, and the scan never terminates. *)
Lemma incremental_search_absorbed_increment :
  (9007199254740992 <=? 9007199254740994)%float = true /\
  (0 <? 1)%float = true /\
  (9007199254740992 + 1 =? 9007199254740992)%float = true /\
  diverges (incremental_search (fun _ : float => 1%float)
              9007199254740992%float 9007199254740994%float 1%float).
Proof.
  split; [reflexivity|]. split; [reflexivity|]. split; [reflexivity|].
  apply and_then_diverges, while_stuck; vm_compute; reflexivity.
Qed.

(** C7, amended.  In exact arithmetic (no rounding in
    [lb + increment_length]) the scan terminates for every target function
    and all bounds whenever [increment_length > 0], and never terminates when
    [increment_length <= 0] and [lb <= ub]. *)
Theorem incremental_search_termination
  (f : Qc -> Qc) (lb0 ub0 increment_length : Qc) :
  ((Q2Qc 0 < increment_length)%Qc ->
   exists r : py (Z * list (list Qc)),
     returns (incremental_search f lb0 ub0 increment_length) r) /\
  ((increment_length <= Q2Qc 0)%Qc -> (lb0 <= ub0)%Qc ->
   diverges (incremental_search f lb0 ub0 increment_length)).
Proof.
  split.
  - apply scan_terminates.
  - intros Hneg Hle; unfold incremental_search.
    apply and_then_diverges; intros fuel.
    apply scan_goes_on; assumption.
Qed.

Lemma incremental_search_termination_witness :
  (exists r : py (Z * list (list Qc)),
     returns (incremental_search sample_f (Q2Qc (-4)) (Q2Qc 8)
                (Q2Qc (4 # 5))) r) /\
  diverges (incremental_search sample_f (Q2Qc (-4)) (Q2Qc 8) (Q2Qc 0)).
Proof.
  split.
  - apply (proj1 (@incremental_search_termination
                    sample_f (Q2Qc (-4)) (Q2Qc 8) (Q2Qc (4 # 5)))).
    vm_compute; reflexivity.
  - apply (proj2 (@incremental_search_termination
                    sample_f (Q2Qc (-4)) (Q2Qc 8) (Q2Qc 0)));
      vm_compute; discriminate.
Defined.

(** C8, as stated, fails on the code.  [f x = x^2 + 1/2000] is positive at
    both ends of [[-1, 1]] and has no zero at all, and yet [bisection] with
    threshold [1/1000] returns the first midpoint [0], where
    [|f 0| = 1/2000 < 1/1000]. *)
Lemma bisection_same_sign_returns_estimate :
  let f := fun x : Qc => (x * x + Q2Qc (1 # 2000))%Qc in
  (Q2Qc 0 < f (Q2Qc (-1)))%Qc /\ (Q2Qc 0 < f (Q2Qc 1))%Qc /\
  (forall x : Qc, f x <> Q2Qc 0) /\
  returns (bisection f (Q2Qc (-1)) (Q2Qc 1) default_threshold
             default_max_iterations)
          (Ret (Some (Q2Qc 0))).
Proof.
  cbv zeta; split; [vm_compute; reflexivity|].
  split; [vm_compute; reflexivity|]. split.
  - intros x E.
    assert (E' : (this (x * x + Q2Qc (1 # 2000))%Qc == 0)%Q)
      by (rewrite E; reflexivity).
    qc_to_q. nra.
  - apply (run_returns _ _ _ 1); vm_compute; reflexivity.
Qed.

(** C8, amended.  In exact arithmetic, for a bracket [lb <= ub] on which
    the target function stays at least [threshold] away from zero
    ([|f x| >= threshold] for every [x] of the bracket; in particular a
    bracket with values of one sign that do not come that close to zero)
    [bisection] returns the not-found signal; when instead
    [|f| < threshold] at the first midpoint, it returns that midpoint,
    whatever the signs at the ends.  (On binary64 floats the midpoint
    [(lb + ub) / 2] can overflow out of the bracket; see
    [bisection_midpoint_overflow].) *)
Theorem bisection_without_sign_change
  (f : Qc -> Qc) (lb0 ub0 threshold : Qc) (max_iterations : Z) :
  (lb0 <= ub0)%Qc ->
  ((forall x : Qc, (lb0 <= x)%Qc -> (x <= ub0)%Qc -> (threshold <= [f x])%Qc) ->
   returns (bisection f lb0 ub0 threshold max_iterations) (Ret None)) /\
  (([f (Qcdiv (lb0 + ub0) (Q2Qc 2))] < threshold)%Qc ->
   returns (bisection f lb0 ub0 threshold max_iterations)
           (Ret (Some (Qcdiv (lb0 + ub0) (Q2Qc 2))))).
Proof.
  intros Hle; split.
  - intros Hfar; apply bisection_never_converging; assumption.
  - apply bisection_first_midpoint; exact Hle.
Qed.

(** [f x = x^2 + 1] on [[-1, 1]]: positive throughout and never within the
    threshold. *)
Lemma bisection_without_sign_change_witness :
  returns (bisection (fun x : Qc => (x * x + Q2Qc 1)%Qc) (Q2Qc (-1)) (Q2Qc 1)
             default_threshold default_max_iterations)
          (Ret None).
Proof.
  refine (proj1 (@bisection_without_sign_change
                   (fun x : Qc => (x * x + Q2Qc 1)%Qc) (Q2Qc (-1)) (Q2Qc 1)
                   default_threshold default_max_iterations _) _).
  - vm_compute; discriminate.
  - intros x _ _. apply Qcle_trans with (x * x + Q2Qc 1)%Qc;
      [|apply Qcle_Qcabs].
    unfold default_threshold; qc_to_q; nra.
Defined.

(** C10, as stated, fails on the code.  With [f x = x], [f_der x = 1] and
    [x0 = 0] the update lands on [x0] and the call returns the initial guess
    itself.  With [f x = x^2 - 1/10000], [f_der x = 2x], [x0 = 1/1000] and
    threshold [1/1000], [|f x0| < threshold] holds and yet the call does not
    return [x0 - f(x0)/f_der(x0) = 101/2000] (which misses the test) but the
    next iterate [10601/404000]. *)
Lemma newton_raphson_may_return_initial_guess :
  returns (newton_raphson (fun x : Qc => x) (fun _ : Qc => Q2Qc 1) (Q2Qc 0)
             default_threshold default_max_iterations)
          (Ret (Some (Q2Qc 0))) /\
  (let f := fun x : Qc => (x * x - Q2Qc (1 # 10000))%Qc in
   let f_der := fun x : Qc => (Q2Qc 2 * x)%Qc in
   let x := Q2Qc (1 # 1000) in
   ([f x] < default_threshold)%Qc /\
   (x - f x / f_der x)%Qc = Q2Qc (101 # 2000) /\
   returns (newton_raphson f f_der x default_threshold
              default_max_iterations)
           (Ret (Some (Q2Qc (10601 # 404000)))) /\
   Q2Qc (10601 # 404000) <> Q2Qc (101 # 2000)).
Proof.
  split; [apply (run_returns _ _ _ 1); vm_compute; reflexivity|].
  cbv zeta; split; [vm_compute; reflexivity|].
  split; [apply Qc_is_canon; vm_compute; reflexivity|].
  split; [apply (run_returns _ _ _ 2); vm_compute; reflexivity|].
  intros E; apply (f_equal this) in E; vm_compute in E; discriminate.
Qed.

(** C10, amended.  [newton_raphson] tests convergence only after an update
    step: it always evaluates [f_der x0] (a zero there is a
    [ZeroDivisionError]); the first value tested is
    [x0 - f(x0)/f_der(x0)], returned when it meets the threshold, whatever
    [|f x0|] is; and every value returned is the result of an update step
    taken from an iterate the loop has reached. *)
Theorem newton_raphson_tests_after_update {num : Type} `{Number num}
  (f f_der : num -> num) (x threshold : num) (max_iterations : Z) :
  ((f_der x =? zero)%num = true ->
   returns (newton_raphson f f_der x threshold max_iterations)
           (Raise ZeroDivisionError)) /\
  ((f_der x =? zero)%num = false ->
   converged threshold (f (x - ndiv (f x) (f_der x))%num) = true ->
   returns (newton_raphson f f_der x threshold max_iterations)
           (Ret (Some (x - ndiv (f x) (f_der x))%num))) /\
  (forall r : num,
     returns (newton_raphson f f_der x threshold max_iterations)
             (Ret (Some r)) ->
     exists s : newton_locals,
       reach (fun _ => true)
         (newton_raphson_body f f_der threshold max_iterations)
         {| nr_x := x; nr_iteration := 0 |} s /\
       (f_der (nr_x s) =? zero)%num = false /\
       r = (nr_x s - ndiv (f (nr_x s)) (f_der (nr_x s)))%num /\
       converged threshold (f r) = true).
Proof.
  split; [apply newton_raphson_first_raise|].
  split; [apply newton_raphson_first_return|].
  apply newton_raphson_return_is_update.
Qed.

(** [f x = x^2] from the stationary point [0] raises at once; the sample
    polynomial from [x0 = 1999/1000] converges at its first update. *)
Lemma newton_raphson_tests_after_update_witness :
  returns (newton_raphson (fun x : Qc => (x * x)%Qc)
             (fun x : Qc => (Q2Qc 2 * x)%Qc) (Q2Qc 0)
             default_threshold default_max_iterations)
          (Raise ZeroDivisionError) /\
  returns (newton_raphson sample_f sample_f_der (Q2Qc (1999 # 1000))
             default_threshold default_max_iterations)
          (Ret (Some (Q2Qc (1999 # 1000) -
                      sample_f (Q2Qc (1999 # 1000)) /
                      sample_f_der (Q2Qc (1999 # 1000)))%Qc)).
Proof.
  split.
  - apply (proj1 (@newton_raphson_tests_after_update Qc Qc_Number
                    (fun x : Qc => (x * x)%Qc) (fun x : Qc => (Q2Qc 2 * x)%Qc)
                    (Q2Qc 0) default_threshold default_max_iterations)).
    vm_compute; reflexivity.
  - apply (proj1 (proj2 (@newton_raphson_tests_after_update Qc Qc_Number
                    sample_f sample_f_der (Q2Qc (1999 # 1000))
                    default_threshold default_max_iterations)));
      vm_compute; reflexivity.
Defined.

(** * Part IV.  Further facts *)

(** ** Overflow of the midpoint

    On binary64 floats [lb + ub] can overflow: for [f x = 1e308 / x] on
    [[1e308, 1.7e308]], where [f] stays above [0.58], the first midpoint is
    [+infinity], [f] is [0] there, and [bisection] returns [+infinity]. *)
Lemma bisection_midpoint_overflow :
  let f := fun x : float => (1e308 / x)%float in
  (1e308 <=? 1.7e308)%float = true /\
  ((1e308 + 1.7e308) / 2 =? infinity)%float = true /\
  (f infinity =? 0)%float = true /\
  returns (bisection f 1e308%float 1.7e308%float 0.001%float 100)
          (Ret (Some infinity)).
Proof.
  cbv zeta; repeat (split; [vm_compute; reflexivity|]).
  apply (and_then_while_at _ _ _ _ 1); vm_compute; reflexivity.
Qed.

(** ** One pass, or none, of a loop *)

Lemma while_pass {S R : Type} (cond : S -> bool) (body : S -> py (ctl S R))
  (s s' : S) (n : nat) :
  cond s = true -> body s = Ret (Continue s') ->
  while cond body s (Datatypes.S n) = while cond body s' n.
Proof. intros Hc Hb; simpl; rewrite Hc, Hb; reflexivity. Qed.

Lemma while_exit {S R : Type} (cond : S -> bool) (body : S -> py (ctl S R))
  (s : S) (n : nat) :
  cond s = false -> while cond body s (Datatypes.S n) = Some (Ret (inl s)).
Proof. intros Hc; simpl; rewrite Hc; reflexivity. Qed.

Section ScanOrder.

Context {num : Type} `{Number num}.

Local Open Scope num_scope.

Variable f : num -> num.
Variables ub0 increment_length : num.

(** One pass appends [emitted_at] at the current position, counts what it
    appends, and moves on by one increment. *)
Lemma incremental_search_body_step (s : scan_locals) :
  incremental_search_body f increment_length s =
  Ret (Continue
         {| scan_lb := scan_lb s + increment_length;
            number_of_roots :=
              number_of_roots s +
              Z.of_nat (length (emitted_at f increment_length (scan_lb s)));
            intervals :=
              intervals s ++ emitted_at f increment_length (scan_lb s) |}).
Proof.
  unfold incremental_search_body, emitted_at.
  destruct (f (scan_lb s) =? zero);
    destruct (f (scan_lb s) * f (scan_lb s + increment_length) <? zero);
    simpl; do 3 f_equal; try lia;
    rewrite <- ?app_assoc, ?app_nil_r; reflexivity.
Qed.

Lemma scan_runs (n : nat) :
  forall (j : nat) (lb0 : num) (s : scan_locals),
    scan_lb s = scan_position lb0 increment_length j ->
    (forall k : nat, (j <= k < j + n)%nat ->
       (scan_position lb0 increment_length k <=? ub0) = true) ->
    (scan_position lb0 increment_length (j + n) <=? ub0) = false ->
    while (incremental_search_cond ub0)
          (incremental_search_body f increment_length) s (Datatypes.S n) =
    Some (Ret (inl
      {| scan_lb := scan_position lb0 increment_length (j + n);
         number_of_roots :=
           number_of_roots s +
           Z.of_nat (length (flat_map (emitted_at f increment_length)
                      (map (scan_position lb0 increment_length) (seq j n))));
         intervals :=
           intervals s ++
           flat_map (emitted_at f increment_length)
             (map (scan_position lb0 increment_length) (seq j n)) |})).
Proof.
  induction n as [|n IH]; intros j lb0 s Hs Hin Hout.
  - rewrite Nat.add_0_r in *. rewrite while_exit.
    + destruct s as [p c l]; simpl in *; subst p.
      rewrite app_nil_r, Z.add_0_r; reflexivity.
    + unfold incremental_search_cond; rewrite Hs; exact Hout.
  - rewrite (@while_pass _ _ (incremental_search_cond ub0)
               (incremental_search_body f increment_length) s
               ({| scan_lb := scan_lb s + increment_length;
                         number_of_roots :=
                           number_of_roots s +
                           Z.of_nat (length (emitted_at f increment_length
                                                (scan_lb s)));
                         intervals :=
                           intervals s ++
                           emitted_at f increment_length (scan_lb s) |})
               (Datatypes.S n));
      [| unfold incremental_search_cond; rewrite Hs; apply Hin; lia
       | apply incremental_search_body_step ].
    rewrite (IH (Datatypes.S j) lb0).
    + replace (Datatypes.S j + n)%nat with (j + Datatypes.S n)%nat by lia.
      cbn [seq map flat_map number_of_roots intervals scan_lb].
      rewrite Hs, length_app, Nat2Z.inj_add, <- app_assoc, Z.add_assoc.
      reflexivity.
    + simpl; rewrite Hs; reflexivity.
    + intros k Hk; apply Hin; lia.
    + replace (Datatypes.S j + n)%nat with (j + Datatypes.S n)%nat by lia.
      exact Hout.
Qed.

End ScanOrder.

Section ScanShape.

Context {num : Type} `{Number num}.

Local Open Scope num_scope.

Variable f : num -> num.
Variables lb0 ub0 increment_length : num.

Lemma emitted_at_pairs (x : num) :
  Forall (fun iv : list num => length iv = 2%nat)
         (emitted_at f increment_length x).
Proof.
  unfold emitted_at.
  destruct (f x =? zero); destruct (f x * f (x + increment_length) <? zero);
    simpl; repeat constructor.
Qed.

Lemma scanned_pairs (n : nat) :
  Forall (fun iv : list num => length iv = 2%nat)
         (scanned f lb0 increment_length n).
Proof.
  unfold scanned. apply Forall_flat_map, Forall_forall.
  intros x _; apply emitted_at_pairs.
Qed.

Lemma scanned_succ (n : nat) :
  scanned f lb0 increment_length (Datatypes.S n) =
  scanned f lb0 increment_length n ++
  emitted_at f increment_length (scan_position lb0 increment_length n).
Proof.
  unfold scanned. rewrite seq_S, map_app, flat_map_app; simpl.
  rewrite app_nil_r; reflexivity.
Qed.

Lemma reach_scan_after (s : scan_locals) :
  reach (incremental_search_cond ub0)
        (incremental_search_body f increment_length)
        {| scan_lb := lb0; number_of_roots := 0; intervals := [] |} s ->
  exists j : nat, scan_after f lb0 ub0 increment_length j s.
Proof.
  apply (reach_invariant
           (fun s => exists j : nat, scan_after f lb0 ub0 increment_length j s)).
  - exists O; repeat split; intros k Hk; lia.
  - intros s1 s2 [j [Hp [Hl [Hc Hk]]]] Hcond Hb.
    rewrite incremental_search_body_step in Hb; injection Hb as <-.
    exists (Datatypes.S j); unfold scan_after; simpl.
    rewrite Hp at 1. split; [reflexivity|].
    rewrite scanned_succ, <- Hl, <- Hp. split; [reflexivity|].
    split; [rewrite length_app, Nat2Z.inj_add, Hc; reflexivity|].
    intros k Hlt. destruct (Nat.eq_dec k j) as [->|Hne].
    + rewrite <- Hp; exact Hcond.
    + apply Hk; lia.
Qed.

End ScanShape.

(** ** The length of the scan, in exact arithmetic *)

Section ScanLength.

Local Open Scope Qc_scope.

Variable f : Qc -> Qc.
Variables lb0 ub0 increment_length : Qc.

Lemma this_div (a b : Qc) : (this (a / b) == this a / this b)%Q.
Proof. unfold Qcdiv, Qcinv; rewrite this_mult, this_Q2Qc; reflexivity. Qed.

Lemma scan_position_this (k : nat) :
  (this (scan_position lb0 increment_length k) ==
   this lb0 + inject_Z (Z.of_nat k) * this increment_length)%Q.
Proof.
  induction k as [|k IH].
  - simpl. change (inject_Z 0) with 0%Q. lra.
  - cbn [scan_position nadd Qc_Number]. rewrite this_plus, IH.
    rewrite Nat2Z.inj_succ; unfold Z.succ; rewrite inject_Z_plus.
    change (inject_Z 1) with 1%Q. ring.
Qed.

Lemma scan_position_closed (k : nat) :
  scan_position lb0 increment_length k =
  lb0 + Q2Qc (inject_Z (Z.of_nat k)) * increment_length.
Proof.
  apply Qc_is_canon. rewrite scan_position_this, this_plus, this_mult, this_Q2Qc.
  reflexivity.
Qed.

Hypothesis positive_increment : Q2Qc 0 < increment_length.

Lemma scan_length_inside (k : nat) :
  (k < scan_length lb0 ub0 increment_length)%nat ->
  Qcleb (scan_position lb0 increment_length k) ub0 = true.
Proof.
  unfold scan_length. destruct (Qcleb lb0 ub0) eqn:Hle; [|lia].
  apply Qcleb_le in Hle. intros Hk. apply Qcleb_le.
  unfold Qcle in *. rewrite scan_position_this.
  set (d := (this ((ub0 - lb0) / increment_length))) in *.
  assert (Hd : (d * this increment_length == this ub0 - this lb0)%Q).
  { unfold d. rewrite this_div, this_minus. field.
    unfold Qclt in positive_increment; rewrite this_Q2Qc in positive_increment.
    lra. }
  assert (Hfl := Qfloor_le d).
  assert (Hk' : (inject_Z (Z.of_nat k) <= inject_Z (Qfloor d))%Q).
  { rewrite <- Zle_Qle.
    assert (0 <= Qfloor d)%Z.
    { destruct (Z_le_gt_dec 0 (Qfloor d)) as [|Hneg]; [assumption|exfalso].
      assert (Hlt := Qlt_floor d).
      assert (Hz : (inject_Z (Qfloor d + 1) <= 0)%Q)
        by (change 0%Q with (inject_Z 0); rewrite <- Zle_Qle; lia).
      unfold Qclt in positive_increment; rewrite this_Q2Qc in positive_increment.
      nra. }
    lia. }
  unfold Qclt in positive_increment; rewrite this_Q2Qc in positive_increment.
  generalize dependent (inject_Z (Z.of_nat k)); intros i Hi.
  generalize dependent (inject_Z (Qfloor d)); intros z Hz1 Hz2.
  nra.
Qed.

Lemma scan_length_outside :
  Qcleb (scan_position lb0 increment_length
           (scan_length lb0 ub0 increment_length)) ub0 = false.
Proof.
  apply not_true_iff_false; rewrite Qcleb_le.
  unfold scan_length. destruct (Qcleb lb0 ub0) eqn:Hle.
  - apply Qcleb_le in Hle. apply Qclt_not_le.
    unfold Qcle, Qclt in *. rewrite scan_position_this.
    set (d := (this ((ub0 - lb0) / increment_length))) in *.
    assert (Hd : (d * this increment_length == this ub0 - this lb0)%Q).
    { unfold d. rewrite this_div, this_minus. field.
      rewrite this_Q2Qc in positive_increment. lra. }
    assert (Hlt := Qlt_floor d).
    rewrite this_Q2Qc in positive_increment.
    assert (H0 : (0 <= Qfloor d)%Z).
    { destruct (Z_le_gt_dec 0 (Qfloor d)) as [|Hneg]; [assumption|exfalso].
      assert (Hz : (inject_Z (Qfloor d + 1) <= 0)%Q)
        by (change 0%Q with (inject_Z 0); rewrite <- Zle_Qle; lia).
      nra. }
    rewrite Nat2Z.inj_succ, Z2Nat.id by exact H0. unfold Z.succ.
    generalize dependent (inject_Z (Qfloor d + 1)); intros z Hz.
    nra.
  - simpl. intros Habs. apply Qcleb_le in Habs. congruence.
Qed.

Lemma emitted_at_exclusive (x : Qc) :
  (length (emitted_at f increment_length x) <= 1)%nat.
Proof.
  unfold emitted_at.
  destruct (neqb (f x) zero) eqn:Hz; [|destruct (nltb _ _); simpl; lia].
  apply Qc_eq_bool_eq in Hz.
  replace (nltb (nmul (f x) (f (nadd x increment_length))) zero) with false;
    [simpl; lia|].
  symmetry; apply not_true_iff_false; intros Hlt.
  apply Qcltb_lt in Hlt. rewrite Hz in Hlt.
  cbn [nmul nadd zero Qc_Number] in Hlt. unfold Qclt in Hlt.
  rewrite this_mult, !this_Q2Qc in Hlt. lra.
Qed.

Lemma scanned_length (n : nat) :
  (length (scanned f lb0 increment_length n) <= n)%nat.
Proof.
  induction n as [|n IH]; [simpl; lia|].
  rewrite scanned_succ, length_app.
  assert (H1 := emitted_at_exclusive (scan_position lb0 increment_length n)).
  lia.
Qed.

End ScanLength.

(** ** Signs *)

Lemma reach_cond_start {S R : Type} (cond : S -> bool)
  (body : S -> py (ctl S R)) (s0 s : S) :
  reach cond body s0 s -> s = s0 \/ cond s0 = true.
Proof.
  induction 1 as [|s1 s2 Hreach IH Hc Hb]; [left; reflexivity|].
  right; destruct IH as [->|IH]; assumption.
Qed.

Section ExactSigns.

Local Open Scope Qc_scope.

Lemma Qcltb_ge (a b : Qc) : Qcltb a b = false <-> b <= a.
Proof.
  rewrite <- not_true_iff_false, Qcltb_lt.
  split; [apply Qcnot_lt_le | apply Qcle_not_lt].
Qed.

(** Not converged, for a positive threshold, is away from zero. *)
Lemma not_converged_nonzero (threshold y : Qc) :
  Q2Qc 0 < threshold -> converged threshold y = false -> y <> Q2Qc 0.
Proof.
  intros Ht Hc Hy; subst y.
  apply not_true_iff_false in Hc; apply Hc.
  apply converged_Qcabs. unfold Qclt in *; simpl. exact Ht.
Qed.

(** Between values of opposite signs, a non-zero value changes sign with
    one of them. *)
Lemma opposite_signs (a b m : Qc) :
  a * b < Q2Qc 0 -> m <> Q2Qc 0 ->
  a * m < Q2Qc 0 \/ b * m < Q2Qc 0.
Proof.
  intros Hab Hm.
  destruct (Qclt_le_dec (a * m) (Q2Qc 0)) as [|Ham]; [left; assumption|].
  destruct (Qclt_le_dec (b * m) (Q2Qc 0)) as [|Hbm]; [right; assumption|].
  exfalso.
  assert (Hm2 : (0 < this m * this m)%Q).
  { assert (Hne : ~ (this m == 0)%Q).
    { intros E; apply Hm; apply Qc_is_canon; rewrite E; reflexivity. }
    nra. }
  qc_to_q.
  assert (H1 : (0 <= (this a * this m) * (this b * this m))%Q)
    by (apply Qmult_le_0_compat; assumption).
  nra.
Qed.

End ExactSigns.

(** ** [bisection] on a bracket with a change of sign *)

Section BisectionHalving.

Local Open Scope Qc_scope.

Variable f : Qc -> Qc.
Variables lb0 ub0 threshold : Qc.
Variable max_iterations : Z.

Lemma bisection_estimate_within (r : Qc) :
  returns (bisection f lb0 ub0 threshold max_iterations) (Ret (Some r)) ->
  lb0 <= r /\ r <= ub0.
Proof.
  intros [n Hn]; specialize (Hn n (le_n n)); unfold bisection in Hn.
  apply and_then_some in Hn; destruct Hn as [o [Ho Heq]].
  apply while_outcome in Ho; destruct Ho as [s [Hreach Hs]].
  destruct Hs as [[_ ->]|[Hc Hb]]; [discriminate|].
  destruct o as [[s'|v]|e]; try discriminate. injection Heq as <-.
  rewrite bisection_pass in Hb. apply rebracket_return in Hb.
  destruct Hb as [Hv _]; injection Hv as ->.
  assert (Hle : lb0 <= ub0).
  { destruct (reach_cond_start Hreach) as [->|H0]; apply Qcleb_le; assumption. }
  destruct (midpoint_within (reach_within_bracket Hle Hreach))
    as [Hlo [_ [_ Hhi]]].
  split; assumption.
Qed.

Hypothesis positive_threshold : Q2Qc 0 < threshold.

Lemma halving_bracket_pass (s s' : bracket_locals) :
  halving_bracket f lb0 ub0 s -> bracket_cond s = true ->
  bisection_body f threshold max_iterations s = Ret (Continue s') ->
  halving_bracket f lb0 ub0 s'.
Proof.
  intros [Hin [Hsign [Hit Hw]]] Hc Hb.
  assert (Hin' : within_bracket lb0 ub0 s')
    by (eapply within_bracket_pass; eassumption).
  destruct (midpoint_within Hin) as [_ [Hlo [Hhi _]]].
  rewrite bisection_pass in Hb; unfold rebracket in Hb.
  assert (Hpow : Q2Qc (inject_Z (2 ^ (iteration s + 1))) =
                 Q2Qc 2 * Q2Qc (inject_Z (2 ^ iteration s))).
  { apply Qc_is_canon. rewrite Z.pow_add_r by lia.
    rewrite this_mult, !this_Q2Qc, inject_Z_mult, Z.pow_1_r.
    rewrite Qmult_comm; reflexivity. }
  cbn [ndiv nadd nmul two zero nltb Qc_Number] in *.
  set (mid := Qcdiv (lb s + ub s) (Q2Qc 2)) in *.
  assert (Hhalf_l : (mid - lb s) * Q2Qc 2 = ub s - lb s)
    by (apply Qc_is_canon; unfold mid; qc_to_q; ring).
  assert (Hhalf_u : (ub s - mid) * Q2Qc 2 = ub s - lb s)
    by (apply Qc_is_canon; unfold mid; qc_to_q; ring).
  revert Hb.
  destruct (converged threshold (f mid)) eqn:Hconv; [discriminate|].
  destruct (iteration s + 1 >? max_iterations)%Z; [discriminate|].
  destruct (Qcltb (f (lb s) * f mid) (Q2Qc 0)) eqn:Hl;
    [|destruct (Qcltb (f (ub s) * f mid) (Q2Qc 0)) eqn:Hu];
    intros Hb; injection Hb as <-.
  - split; [exact Hin'|]. simpl.
    split; [apply Qcltb_lt; exact Hl|]. split; [lia|].
    rewrite Hpow, Qcmult_assoc, Hhalf_l; exact Hw.
  - split; [exact Hin'|]. simpl.
    split; [rewrite Qcmult_comm; apply Qcltb_lt; exact Hu|]. split; [lia|].
    rewrite Hpow, Qcmult_assoc, Hhalf_u; exact Hw.
  - exfalso.
    destruct (opposite_signs (m := f mid) Hsign
                (not_converged_nonzero positive_threshold Hconv))
      as [H1|H1]; apply Qcltb_lt in H1; congruence.
Qed.

Lemma reach_halving_bracket (s : bracket_locals) :
  lb0 <= ub0 -> f lb0 * f ub0 < Q2Qc 0 ->
  reach bracket_cond (bisection_body f threshold max_iterations)
    {| lb := lb0; ub := ub0; iteration := 0 |} s ->
  halving_bracket f lb0 ub0 s.
Proof.
  intros Hle Hsign.
  apply (reach_invariant (halving_bracket f lb0 ub0));
    [|exact halving_bracket_pass].
  unfold halving_bracket, within_bracket; simpl.
  repeat split; try assumption; try apply Qcle_refl; try lia.
  apply Qc_is_canon; qc_to_q. change (inject_Z (2 ^ 0)) with 1%Q. ring.
Qed.

End BisectionHalving.

(** ** [false_position] on a bracket with a change of sign *)

Lemma Q_secant_between (q fa fb a b : Q) :
  (fa * fb < 0)%Q -> (a < b)%Q ->
  (q * (fa - fb) == fb * (a - b))%Q ->
  (0 < q)%Q /\ (q < b - a)%Q.
Proof.
  intros Hsign Hab Hq.
  destruct (Qlt_le_dec 0 fb) as [Hpos|Hneg].
  - assert (Hfa : (fa < 0)%Q) by (clear Hq Hab; nra).
    clear Hsign; split; nra.
  - assert (Hfb : (fb < 0)%Q).
    { destruct (Qlt_le_dec fb 0) as [|Hge]; [assumption|exfalso].
      assert (E : (fb == 0)%Q) by lra. rewrite E in Hsign. lra. }
    assert (Hfa : (0 < fa)%Q) by (clear Hq Hab Hneg; nra).
    clear Hsign Hneg; split; nra.
Qed.

Section SecantLine.

Local Open Scope Qc_scope.

(** The zero of the line through [(a, fa)] and [(b, fb)], for values of
    opposite signs, lies strictly between [a] and [b]. *)
Lemma secant_zero_between (a b fa fb : Qc) :
  a < b -> fa * fb < Q2Qc 0 ->
  fa - fb <> Q2Qc 0 /\
  a < b - fb * (a - b) / (fa - fb) /\
  b - fb * (a - b) / (fa - fb) < b.
Proof.
  intros Hab Hsign.
  assert (Hd : fa - fb <> Q2Qc 0).
  { intros E; apply (proj1 (Qcminus_zero _ _)) in E; subst fb.
    qc_to_q. nra. }
  split; [exact Hd|].
  set (q := fb * (a - b) / (fa - fb)).
  assert (Hq : q * (fa - fb) = fb * (a - b)) by (unfold q; field; exact Hd).
  assert (Hq' : (this q * (this fa - this fb) == this fb * (this a - this b))%Q).
  { rewrite <- this_minus, <- this_mult, Hq, this_mult, this_minus.
    reflexivity. }
  clearbody q. clear Hq Hd. qc_to_q.
  destruct (Q_secant_between Hsign Hab Hq') as [H1 H2].
  split; lra.
Qed.

End SecantLine.

Section FalsePositionBracket.

Local Open Scope Qc_scope.

Variable f : Qc -> Qc.
Variables lb0 ub0 threshold : Qc.
Variable max_iterations : Z.

Lemma sign_change_bracket_estimate (s : bracket_locals) :
  sign_change_bracket f lb0 ub0 s ->
  false_position_body f threshold max_iterations s =
  rebracket f threshold max_iterations s (iteration s + 1)
    (ub s - f (ub s) * (lb s - ub s) / (f (lb s) - f (ub s))) /\
  lb s < ub s - f (ub s) * (lb s - ub s) / (f (lb s) - f (ub s)) /\
  ub s - f (ub s) * (lb s - ub s) / (f (lb s) - f (ub s)) < ub s.
Proof.
  intros [_ [Hlt [_ Hsign]]].
  destruct (secant_zero_between Hlt Hsign) as [Hd Hx].
  split; [|exact Hx].
  unfold false_position_body, pydiv.
  destruct (neqb (nsub (f (lb s)) (f (ub s))) zero) eqn:Hz; [|reflexivity].
  apply Qc_eq_bool_eq in Hz; contradiction.
Qed.

Lemma sign_change_bracket_pass (s s' : bracket_locals) :
  sign_change_bracket f lb0 ub0 s -> bracket_cond s = true ->
  false_position_body f threshold max_iterations s = Ret (Continue s') ->
  sign_change_bracket f lb0 ub0 s'.
Proof.
  intros Hs _ Hb.
  destruct (sign_change_bracket_estimate Hs) as [Hbody [Hlo Hhi]].
  rewrite Hbody in Hb; clear Hbody.
  destruct Hs as [H1 [H2 [H3 Hsign]]].
  set (x := ub s - f (ub s) * (lb s - ub s) / (f (lb s) - f (ub s))) in *.
  unfold rebracket in Hb. cbn [nmul zero nltb Qc_Number] in Hb.
  revert Hb.
  destruct (converged threshold (f x)); [discriminate|].
  destruct (iteration s + 1 >? max_iterations)%Z; [discriminate|].
  destruct (Qcltb (f (lb s) * f x) (Q2Qc 0)) eqn:Hl;
    [|destruct (Qcltb (f (ub s) * f x) (Q2Qc 0)) eqn:Hu];
    intros Hb; injection Hb as <-; unfold sign_change_bracket; simpl.
  - repeat split; try assumption.
    + apply Qclt_le_weak, Qclt_le_trans with (ub s); assumption.
    + apply Qcltb_lt; exact Hl.
  - repeat split; try assumption.
    + apply Qcle_trans with (lb s); [assumption|apply Qclt_le_weak; assumption].
    + rewrite Qcmult_comm; apply Qcltb_lt; exact Hu.
  - repeat split; assumption.
Qed.

Hypothesis ordered : lb0 < ub0.
Hypothesis sign_change : f lb0 * f ub0 < Q2Qc 0.

Lemma reach_sign_change_bracket (s : bracket_locals) :
  reach bracket_cond (false_position_body f threshold max_iterations)
    {| lb := lb0; ub := ub0; iteration := 0 |} s ->
  sign_change_bracket f lb0 ub0 s.
Proof.
  apply (reach_invariant (sign_change_bracket f lb0 ub0));
    [|exact sign_change_bracket_pass].
  unfold sign_change_bracket; simpl.
  repeat split; try assumption; apply Qcle_refl.
Qed.

Lemma false_position_on_sign_change :
  exists o : py (option Qc),
    returns (false_position f lb0 ub0 threshold max_iterations) o /\
    match o with
    | Ret (Some r) => lb0 < r /\ r < ub0 /\ [f r] < threshold
    | Ret None => True
    | Raise _ => False
    end.
Proof.
  destruct (refiner_terminates bracket_cond
              (false_position_body f threshold max_iterations) iteration
              (@false_position_body_counts _ _ f threshold max_iterations)
              {| lb := lb0; ub := ub0; iteration := 0 |}) as [o Ho].
  exists o; split; [exact Ho|].
  destruct Ho as [n Hn]; specialize (Hn n (le_n n)).
  apply and_then_some in Hn; destruct Hn as [r [Hr ->]].
  apply while_outcome in Hr; destruct Hr as [s [Hreach Hs]].
  assert (Hinv := reach_sign_change_bracket Hreach).
  destruct Hs as [[_ ->]|[_ Hb]]; [exact I|].
  destruct (sign_change_bracket_estimate Hinv) as [Hbody [Hlo Hhi]].
  rewrite Hbody in Hb.
  destruct Hinv as [H1 [_ [H3 _]]].
  destruct r as [[s'|v]|e]; [exact I| |].
  - apply rebracket_return in Hb; destruct Hb as [-> Hc].
    split; [apply Qcle_lt_trans with (lb s); assumption|].
    split; [apply Qclt_le_trans with (ub s); assumption|].
    apply converged_Qcabs; exact Hc.
  - revert Hb; apply rebracket_not_raise.
Qed.

End FalsePositionBracket.

(** ** Caps, degenerate inputs, linear targets *)

Section CappedCalls.

Context {S R : Type}.
Variable cond : S -> bool.
Variable body : S -> py (ctl S R).
Variable after : S -> R.

(** A loop whose test fails at once leaves with its initial locals. *)
Lemma and_then_while_skip (s0 : S) :
  cond s0 = false ->
  returns (and_then (while cond body s0) after) (Ret (after s0)).
Proof.
  intros Hc. apply (and_then_returns after (r := Ret (inl s0))).
  exists 1%nat; intros [|fuel] Hle; [lia|]. apply while_exit; exact Hc.
Qed.

(** The call of a capped loop has its result within [cap - count + 1]
    tests. *)
Lemma and_then_while_capped (count : S -> Z) (cap : Z) (s0 : S) (fuel : nat) :
  (forall s s' : S, body s = Ret (Continue s') ->
     count s' = (count s + 1)%Z /\ (count s' <= cap)%Z) ->
  (Z.to_nat (cap - count s0) + 1 <= fuel)%nat ->
  exists o : py R, and_then (while cond body s0) after fuel = Some o.
Proof.
  intros Hcount Hfuel.
  destruct (while_capped cond body count Hcount s0 Hfuel) as [r Hr].
  unfold and_then; rewrite Hr. destruct r as [[s|v]|e]; eauto.
Qed.

End CappedCalls.

Section Degenerate.

Local Open Scope Qc_scope.

Variable f : Qc -> Qc.
Variables a threshold : Qc.
Variable max_iterations : Z.

Lemma false_position_point_bracket :
  returns (false_position f a a threshold max_iterations)
          (Raise ZeroDivisionError).
Proof.
  unfold false_position.
  apply (and_then_while_raise (fun _ => None) (reach_start _ _ _)).
  - apply Qcleb_le; apply Qcle_refl.
  - apply false_position_body_raises; simpl.
    apply Qc_eq_bool_eq, Qcminus_zero; reflexivity.
Qed.

Lemma secant_equal_guesses :
  returns (secant f a a threshold max_iterations) (Raise ZeroDivisionError).
Proof.
  unfold secant.
  apply (and_then_while_raise (fun _ => None) (reach_start _ _ _));
    [reflexivity|].
  apply secant_body_raises; simpl.
  apply Qc_eq_bool_eq, Qcminus_zero; reflexivity.
Qed.

Lemma modified_secant_zero_perturbation :
  returns (modified_secant f a (Q2Qc 0) threshold max_iterations)
          (Raise ZeroDivisionError).
Proof.
  unfold modified_secant.
  apply (and_then_while_raise (fun _ => None) (reach_start _ _ _));
    [reflexivity|].
  apply modified_secant_body_raises; simpl.
  apply Qc_eq_bool_eq, Qcminus_zero. rewrite Qcplus_0_r; reflexivity.
Qed.

End Degenerate.

Section Linear.

Local Open Scope Qc_scope.

Variables a b : Qc.
Hypothesis slope : a <> Q2Qc 0.

Variable threshold : Qc.
Hypothesis positive_threshold : Q2Qc 0 < threshold.
Variable max_iterations : Z.


Lemma linear_root : linear a b (- b / a) = Q2Qc 0.
Proof. unfold linear; field; exact slope. Qed.

Lemma linear_root_converged : converged threshold (linear a b (- b / a)) = true.
Proof.
  rewrite linear_root. apply converged_Qcabs. exact positive_threshold.
Qed.

Lemma newton_raphson_linear (x : Qc) :
  returns (newton_raphson (linear a b) (fun _ => a) x threshold max_iterations)
          (Ret (Some (- b / a))).
Proof.
  assert (E : - b / a = x - (linear a b x) / a) by (unfold linear; field; exact slope).
  rewrite E.
  apply (@newton_raphson_first_return Qc Qc_Number (linear a b) (fun _ => a) x
           threshold max_iterations).
  - apply not_true_iff_false; intros Hz; apply Qc_eq_bool_eq in Hz.
    contradiction.
  - cbn [nsub ndiv Qc_Number]. rewrite <- E. exact linear_root_converged.
Qed.

Lemma linear_difference (u v : Qc) :
  u <> v -> linear a b u - linear a b v <> Q2Qc 0.
Proof.
  intros Huv E. apply (proj1 (Qcminus_zero _ _)) in E. unfold linear in E.
  apply Huv. apply Qc_is_canon.
  assert (E' : (this (a * u + b) == this (a * v + b))%Q)
    by (rewrite E; reflexivity).
  assert (Ha : ~ (this a == 0)%Q).
  { intros Ha; apply slope; apply Qc_is_canon; rewrite Ha; reflexivity. }
  qc_to_q. nra.
Qed.

Lemma Qc_eq_bool_false (u v : Qc) : u <> v -> Qc_eq_bool u v = false.
Proof.
  intros Huv; apply not_true_iff_false; intros Hz.
  apply Qc_eq_bool_eq in Hz; contradiction.
Qed.

Lemma secant_linear (u v : Qc) :
  u <> v ->
  returns (secant (linear a b) u v threshold max_iterations)
          (Ret (Some (- b / a))).
Proof.
  intros Huv.
  assert (Hd : linear a b v - linear a b u <> Q2Qc 0)
    by (apply linear_difference; congruence).
  assert (E : - b / a =
              v - linear a b v * (v - u) / (linear a b v - linear a b u)).
  { unfold linear in *. field. split; assumption. }
  unfold secant.
  apply (and_then_while_return (fun _ => None) (reach_start _ _ _));
    [reflexivity|].
  unfold secant_body, pydiv; simpl.
  rewrite (Qc_eq_bool_false Hd); simpl.
  rewrite <- E, linear_root_converged. reflexivity.
Qed.

Lemma false_position_linear (u v : Qc) :
  u < v ->
  returns (false_position (linear a b) u v threshold max_iterations)
          (Ret (Some (- b / a))).
Proof.
  intros Huv.
  assert (Hne : u <> v) by (intros ->; exact (Qclt_not_eq _ _ Huv eq_refl)).
  assert (Hd : linear a b u - linear a b v <> Q2Qc 0)
    by (apply linear_difference; exact Hne).
  assert (E : - b / a =
              v - linear a b v * (u - v) / (linear a b u - linear a b v)).
  { unfold linear in *. field. split; assumption. }
  unfold false_position.
  apply (and_then_while_return (fun _ => None) (reach_start _ _ _)).
  - apply Qcleb_le, Qclt_le_weak; exact Huv.
  - unfold false_position_body, pydiv; simpl.
    rewrite (Qc_eq_bool_false Hd); simpl.
    unfold rebracket. cbn [nsub ndiv Qc_Number].
    rewrite <- E, linear_root_converged. reflexivity.
Qed.

Lemma modified_secant_linear (x dx : Qc) :
  dx <> Q2Qc 0 ->
  returns (modified_secant (linear a b) x dx threshold max_iterations)
          (Ret (Some (- b / a))).
Proof.
  intros Hdx.
  assert (Hd : linear a b (x + dx) - linear a b x <> Q2Qc 0).
  { apply linear_difference. intros E; apply Hdx.
    apply Qc_is_canon.
    assert (E' : (this (x + dx) == this x)%Q) by (rewrite E; reflexivity).
    qc_to_q. lra. }
  assert (E : - b / a =
              x - linear a b x * dx / (linear a b (x + dx) - linear a b x)).
  { unfold linear in *. field. split; assumption. }
  unfold modified_secant.
  apply (and_then_while_return (fun _ => None) (reach_start _ _ _));
    [reflexivity|].
  unfold modified_secant_body, pydiv; simpl.
  rewrite (Qc_eq_bool_false Hd); simpl.
  rewrite <- E, linear_root_converged. reflexivity.
Qed.

End Linear.

(** ** The result of a scan *)

Section ScanResult.

Context {num : Type} `{Number num}.

Local Open Scope num_scope.

Variable f : num -> num.
Variables lb0 ub0 increment_length : num.

(** A scan that has a result stopped at the first position beyond [ub]. *)
Lemma scan_result (fuel : nat) (o : py (Z * list (list num))) :
  incremental_search f lb0 ub0 increment_length fuel = Some o ->
  exists n : nat,
    (forall k : nat, (k < n)%nat ->
       (scan_position lb0 increment_length k <=? ub0) = true) /\
    (scan_position lb0 increment_length n <=? ub0) = false /\
    o = Ret (Z.of_nat (length (scanned f lb0 increment_length n)),
             scanned f lb0 increment_length n).
Proof.
  unfold incremental_search; intros Ho.
  apply and_then_some in Ho; destruct Ho as [r [Hr ->]].
  apply while_outcome in Hr; destruct Hr as [s [Hreach Hs]].
  destruct (reach_scan_after Hreach) as [n [Hp [Hl [Hc Hk]]]].
  exists n; split; [exact Hk|].
  destruct Hs as [[Hcond ->]|[_ Hb]].
  - split; [rewrite <- Hp; exact Hcond|].
    rewrite Hc, Hl; reflexivity.
  - rewrite incremental_search_body_step in Hb.
    destruct r as [[s'|v]|e]; discriminate.
Qed.

Lemma scan_returns (n : nat) :
  (forall k : nat, (k < n)%nat ->
     (scan_position lb0 increment_length k <=? ub0) = true) ->
  (scan_position lb0 increment_length n <=? ub0) = false ->
  returns (incremental_search f lb0 ub0 increment_length)
    (Ret (Z.of_nat (length (scanned f lb0 increment_length n)),
          scanned f lb0 increment_length n)).
Proof.
  intros Hin Hout.
  apply (and_then_while_at _ _ _ _ (Datatypes.S n)).
  unfold and_then.
  rewrite (@scan_runs _ _ f ub0 increment_length n 0 lb0
             {| scan_lb := lb0; number_of_roots := 0; intervals := [] |}
             eq_refl);
    [reflexivity | intros k Hk; apply Hin; lia | exact Hout].
Qed.

End ScanResult.

(** * Part V.  Further properties of the code *)

(** X1. The scan, exactly: [incremental_search] returns if and only if some
    position [lb + increment_length + ... + increment_length] ([n] additions)
    is the first one not [<= ub]; it then returns what the positions before
    it emitted, in scan order (for each position the interval of an exact
    zero, then the interval of a change of sign), with its length as count.
    This holds for every kind of number, binary64 floats included. *)
Theorem incremental_search_scans_in_order {num : Type} `{Number num}
  (f : num -> num) (lb0 ub0 increment_length : num)
  (o : py (Z * list (list num))) :
  returns (incremental_search f lb0 ub0 increment_length) o <->
  exists n : nat,
    (forall k : nat, (k < n)%nat ->
       (scan_position lb0 increment_length k <=? ub0)%num = true) /\
    (scan_position lb0 increment_length n <=? ub0)%num = false /\
    o = Ret (Z.of_nat (length (scanned f lb0 increment_length n)),
             scanned f lb0 increment_length n).
Proof.
  split.
  - intros [k Hk]. exact (scan_result f lb0 ub0 increment_length k
                            (Hk k (le_n k))).
  - intros [n [Hin [Hout ->]]]. apply scan_returns; assumption.
Qed.

(** X2. The shape of a scan result: [incremental_search] never raises, and
    whatever it returns is a count with a list of that many intervals, each a
    list of exactly two numbers; indexing [intervals[idx][0]] and
    [intervals[idx][1]] for [idx < count], as the driver does, is in
    range. *)
Theorem incremental_search_result_shape {num : Type} `{Number num}
  (f : num -> num) (lb0 ub0 increment_length : num) (fuel : nat)
  (o : py (Z * list (list num))) :
  incremental_search f lb0 ub0 increment_length fuel = Some o ->
  exists (n : Z) (l : list (list num)),
    o = Ret (n, l) /\ n = Z.of_nat (length l) /\
    Forall (fun iv : list num => length iv = 2%nat) l.
Proof.
  intros Ho. apply scan_result in Ho. destruct Ho as [n [_ [_ ->]]].
  eexists; eexists; split; [reflexivity|]. split; [reflexivity|].
  apply scanned_pairs.
Qed.

(** On floats: [x^2 - 7x + 10] over [[-4, 8]] in steps of [0.5] hits the
    roots [2] and [5] exactly. *)
Lemma incremental_search_result_shape_witness :
  exists (n : Z) (l : list (list float)),
    Ret (2%Z, [[1.5; 2.5]; [4.5; 5.5]]%float) = Ret (n, l) /\
    n = Z.of_nat (length l) /\
    Forall (fun iv : list float => length iv = 2%nat) l.
Proof.
  apply (@incremental_search_result_shape float float_Number
           (fun x : float => (x * x - 7 * x + 10)%float)
           (-4)%float 8%float 0.5%float 30%nat).
  vm_compute; reflexivity.
Defined.

(** X3. The scan in exact arithmetic: for a positive increment the positions
    are [lb + k * increment_length] for [k = 0 .. floor((ub - lb) /
    increment_length)] (none when [lb > ub]); the scan returns what those
    positions emit, and at most one interval for each of them, a position
    with an exact zero never counting as a change of sign as well. *)
Theorem incremental_search_positions
  (f : Qc -> Qc) (lb0 ub0 increment_length : Qc) :
  (Q2Qc 0 < increment_length)%Qc ->
  returns (incremental_search f lb0 ub0 increment_length)
    (Ret (Z.of_nat (length (scanned f lb0 increment_length
                              (scan_length lb0 ub0 increment_length))),
          scanned f lb0 increment_length
            (scan_length lb0 ub0 increment_length))) /\
  (forall k : nat,
     scan_position lb0 increment_length k =
     (lb0 + Q2Qc (inject_Z (Z.of_nat k)) * increment_length)%Qc) /\
  (length (scanned f lb0 increment_length
             (scan_length lb0 ub0 increment_length))
   <= scan_length lb0 ub0 increment_length)%nat.
Proof.
  intros Hpos. split; [|split].
  - apply scan_returns.
    + intros k Hk; apply scan_length_inside; assumption.
    + apply scan_length_outside; assumption.
  - apply scan_position_closed.
  - apply scanned_length.
Qed.

(** The sample of [main.py]: sixteen positions, two intervals. *)
Lemma incremental_search_positions_witness :
  returns (incremental_search sample_f (Q2Qc (-4)) (Q2Qc 8) (Q2Qc (4 # 5)))
    (Ret (Z.of_nat (length (scanned sample_f (Q2Qc (-4)) (Q2Qc (4 # 5)) 16)),
          scanned sample_f (Q2Qc (-4)) (Q2Qc (4 # 5)) 16)) /\
  (length (scanned sample_f (Q2Qc (-4)) (Q2Qc (4 # 5)) 16) <= 16)%nat.
Proof.
  destruct (@incremental_search_positions sample_f (Q2Qc (-4)) (Q2Qc 8)
              (Q2Qc (4 # 5)) eq_refl) as [Hret [_ Hlen]].
  split; [exact Hret | exact Hlen].
Defined.

(** X4. Inverted bracket: when [lb <= ub] is false at entry, [bisection]
    and [false_position] skip their loop and return the not-found signal,
    whatever the target function, without evaluating it and without an
    exception. *)
Theorem inverted_bracket_not_found {num : Type} `{Number num}
  (f : num -> num) (lb0 ub0 threshold : num) (max_iterations : Z) :
  (lb0 <=? ub0)%num = false ->
  returns (bisection f lb0 ub0 threshold max_iterations) (Ret None) /\
  returns (false_position f lb0 ub0 threshold max_iterations) (Ret None).
Proof.
  intros Hc; split.
  - exact (and_then_while_skip bracket_cond
             (bisection_body f threshold max_iterations) (fun _ => None)
             {| lb := lb0; ub := ub0; iteration := 0 |} Hc).
  - exact (and_then_while_skip bracket_cond
             (false_position_body f threshold max_iterations) (fun _ => None)
             {| lb := lb0; ub := ub0; iteration := 0 |} Hc).
Qed.

Lemma inverted_bracket_not_found_witness :
  returns (bisection sample_f (Q2Qc 3) (Q2Qc 1) default_threshold
             default_max_iterations) (Ret None) /\
  returns (false_position sample_f (Q2Qc 3) (Q2Qc 1) default_threshold
             default_max_iterations) (Ret None).
Proof.
  exact (@inverted_bracket_not_found Qc Qc_Number sample_f (Q2Qc 3) (Q2Qc 1)
           default_threshold default_max_iterations eq_refl).
Defined.

(** X5. The iteration cap: each of the five refiners has its result after
    at most [max_iterations + 1] tests of its loop (one when
    [max_iterations] is negative), whatever the numbers and the target
    function. *)
Theorem refiners_within_cap {num : Type} `{Number num}
  (f f_der : num -> num) (a b threshold : num) (max_iterations : Z)
  (fuel : nat) :
  (Z.to_nat max_iterations + 1 <= fuel)%nat ->
  (exists o, bisection f a b threshold max_iterations fuel = Some o) /\
  (exists o, false_position f a b threshold max_iterations fuel = Some o) /\
  (exists o, newton_raphson f f_der a threshold max_iterations fuel = Some o) /\
  (exists o, secant f a b threshold max_iterations fuel = Some o) /\
  (exists o, modified_secant f a b threshold max_iterations fuel = Some o).
Proof.
  intros Hfuel.
  split; [|split; [|split; [|split]]].
  - unfold bisection.
    eapply and_then_while_capped with (count := iteration)
                                      (cap := max_iterations);
      [intros s s'; apply bisection_body_counts | simpl; lia].
  - unfold false_position.
    eapply and_then_while_capped with (count := iteration)
                                      (cap := max_iterations);
      [intros s s'; apply false_position_body_counts | simpl; lia].
  - unfold newton_raphson.
    eapply and_then_while_capped with (count := nr_iteration)
                                      (cap := max_iterations);
      [intros s s'; apply newton_raphson_body_counts | simpl; lia].
  - unfold secant.
    eapply and_then_while_capped with (count := sec_iteration)
                                      (cap := max_iterations);
      [intros s s'; apply secant_body_counts | simpl; lia].
  - unfold modified_secant.
    eapply and_then_while_capped with (count := fun i : Z => i)
                                      (cap := max_iterations);
      [intros s s'; apply modified_secant_body_counts | simpl; lia].
Qed.

Lemma refiners_within_cap_witness :
  (exists o, bisection sample_f (Q2Qc 0) (Q2Qc 1) default_threshold 3%Z 4%nat
             = Some o) /\
  (exists o, false_position sample_f (Q2Qc 0) (Q2Qc 1) default_threshold 3%Z 4%nat
             = Some o) /\
  (exists o, newton_raphson sample_f sample_f_der (Q2Qc 0) default_threshold
               3%Z 4%nat = Some o) /\
  (exists o, secant sample_f (Q2Qc 0) (Q2Qc 1) default_threshold 3%Z 4%nat
             = Some o) /\
  (exists o, modified_secant sample_f (Q2Qc 0) (Q2Qc 1) default_threshold
               3%Z 4%nat = Some o).
Proof.
  apply (@refiners_within_cap Qc Qc_Number sample_f sample_f_der
           (Q2Qc 0) (Q2Qc 1) default_threshold 3%Z 4%nat).
  vm_compute. lia.
Defined.

(** X6. Where [bisection] finds its estimate: every number it returns lies
    in the initial bracket, [lb <= r <= ub], whatever the target function
    (with a change of sign or without). *)
Theorem bisection_estimate_in_bracket
  (f : Qc -> Qc) (lb0 ub0 threshold : Qc) (max_iterations : Z) (r : Qc) :
  returns (bisection f lb0 ub0 threshold max_iterations) (Ret (Some r)) ->
  (lb0 <= r)%Qc /\ (r <= ub0)%Qc.
Proof. apply bisection_estimate_within. Qed.

(** The first bracket of the sample: the root [2] of [x^2 - 7x + 10],
    found in [[8/5, 12/5]]. *)
Lemma bisection_estimate_in_bracket_witness :
  (Q2Qc (8 # 5) <= Q2Qc 2)%Qc /\ (Q2Qc 2 <= Q2Qc (12 # 5))%Qc.
Proof.
  apply (@bisection_estimate_in_bracket sample_f (Q2Qc (8 # 5))
           (Q2Qc (12 # 5)) default_threshold default_max_iterations
           (Q2Qc 2)).
  apply (run_returns _ _ _ 1); vm_compute; reflexivity.
Defined.

(** X7. The invariant of [bisection] on a bracket with a change of sign
    ([f(lb)*f(ub) < 0], and a positive threshold): every bracket the loop
    comes to still has values of opposite signs at its ends, lies in the
    initial bracket, and is the initial width divided by [2^iteration]. *)
Theorem bisection_halves_sign_change_bracket
  (f : Qc -> Qc) (lb0 ub0 threshold : Qc) (max_iterations : Z)
  (s : bracket_locals) :
  (lb0 <= ub0)%Qc -> (f lb0 * f ub0 < Q2Qc 0)%Qc ->
  (Q2Qc 0 < threshold)%Qc ->
  reach bracket_cond (bisection_body f threshold max_iterations)
    {| lb := lb0; ub := ub0; iteration := 0 |} s ->
  (f (lb s) * f (ub s) < Q2Qc 0)%Qc /\
  (lb0 <= lb s)%Qc /\ (lb s <= ub s)%Qc /\ (ub s <= ub0)%Qc /\
  (0 <= iteration s)%Z /\
  ((ub s - lb s) * Q2Qc (inject_Z (2 ^ iteration s)) = ub0 - lb0)%Qc.
Proof.
  intros Hle Hsign Ht Hreach.
  destruct (reach_halving_bracket Ht Hle Hsign Hreach)
    as [[H1 [H2 H3]] [H4 [H5 H6]]].
  repeat split; assumption.
Qed.

(** [x - 1/4] on [[0, 1]]: after one pass the bracket is [[0, 1/2]]. *)
Lemma bisection_halves_sign_change_bracket_witness :
  exists s : bracket_locals,
    iteration s = 1%Z /\
    ((fun x : Qc => x - Q2Qc (1 # 4)) (lb s) *
     (fun x : Qc => x - Q2Qc (1 # 4)) (ub s) < Q2Qc 0)%Qc /\
    (Q2Qc 0 <= lb s)%Qc /\ (lb s <= ub s)%Qc /\ (ub s <= Q2Qc 1)%Qc /\
    (0 <= iteration s)%Z /\
    ((ub s - lb s) * Q2Qc (inject_Z (2 ^ iteration s)) =
     Q2Qc 1 - Q2Qc 0)%Qc.
Proof.
  eexists; split;
    [|eapply (@bisection_halves_sign_change_bracket
                (fun x : Qc => (x - Q2Qc (1 # 4))%Qc) (Q2Qc 0) (Q2Qc 1)
                default_threshold default_max_iterations);
      [ vm_compute; discriminate | vm_compute; reflexivity
      | vm_compute; reflexivity
      | eapply reach_pass;
          [apply reach_start | reflexivity | vm_compute; reflexivity] ] ].
  reflexivity.
Defined.

(** X8. [false_position] on a bracket with a change of sign ([lb < ub],
    [f(lb)*f(ub) < 0]): the divisor [f(lb) - f(ub)] is never zero at any
    bracket the loop comes to, so the call never raises; it ends with the
    not-found signal or with an estimate [r] strictly inside the initial
    bracket, [lb < r < ub], with [|f r| < threshold]. *)
Theorem false_position_on_sign_change_bracket
  (f : Qc -> Qc) (lb0 ub0 threshold : Qc) (max_iterations : Z) :
  (lb0 < ub0)%Qc -> (f lb0 * f ub0 < Q2Qc 0)%Qc ->
  exists o : py (option Qc),
    returns (false_position f lb0 ub0 threshold max_iterations) o /\
    match o with
    | Ret (Some r) => (lb0 < r)%Qc /\ (r < ub0)%Qc /\ ([f r] < threshold)%Qc
    | Ret None => True
    | Raise _ => False
    end.
Proof. intros Hlt Hsign; apply false_position_on_sign_change; assumption. Qed.

Lemma false_position_on_sign_change_bracket_witness :
  exists o : py (option Qc),
    returns (false_position sample_f (Q2Qc (8 # 5)) (Q2Qc (12 # 5))
               default_threshold default_max_iterations) o /\
    match o with
    | Ret (Some r) =>
        (Q2Qc (8 # 5) < r)%Qc /\ (r < Q2Qc (12 # 5))%Qc /\
        ([sample_f r] < default_threshold)%Qc
    | Ret None => True
    | Raise _ => False
    end.
Proof.
  apply (@false_position_on_sign_change_bracket sample_f (Q2Qc (8 # 5))
           (Q2Qc (12 # 5)) default_threshold default_max_iterations);
    vm_compute; reflexivity.
Defined.

(** X9. Degenerate inputs: [false_position] on a bracket reduced to a point
    ([lb = ub]), [secant] with two equal guesses and [modified_secant] with
    a zero perturbation divide by [f(a) - f(a) = 0] in their first pass and
    end in [ZeroDivisionError], whatever the target function, the threshold
    and the cap (even when [a] is an exact root). *)
Theorem degenerate_inputs_raise
  (f : Qc -> Qc) (a threshold : Qc) (max_iterations : Z) :
  returns (false_position f a a threshold max_iterations)
          (Raise ZeroDivisionError) /\
  returns (secant f a a threshold max_iterations)
          (Raise ZeroDivisionError) /\
  returns (modified_secant f a (Q2Qc 0) threshold max_iterations)
          (Raise ZeroDivisionError).
Proof.
  split; [apply false_position_point_bracket|].
  split; [apply secant_equal_guesses | apply modified_secant_zero_perturbation].
Qed.

(** X10. Newton-Raphson solves a linear equation in one step: for
    [f x = a*x + b] with [a <> 0], derivative [a] and a positive threshold,
    the call returns the exact root [-b/a] from every initial guess and for
    every cap. *)
Theorem newton_raphson_solves_linear
  (a b x threshold : Qc) (max_iterations : Z) :
  a <> Q2Qc 0 -> (Q2Qc 0 < threshold)%Qc ->
  returns (newton_raphson (linear a b) (fun _ => a) x threshold
             max_iterations)
          (Ret (Some (- b / a)%Qc)).
Proof. intros Ha Ht; apply newton_raphson_linear; assumption. Qed.

Lemma newton_raphson_solves_linear_witness :
  returns (newton_raphson (linear (Q2Qc 2) (Q2Qc (-3))) (fun _ => Q2Qc 2)
             (Q2Qc 10) default_threshold default_max_iterations)
          (Ret (Some (- Q2Qc (-3) / Q2Qc 2)%Qc)).
Proof.
  apply (@newton_raphson_solves_linear (Q2Qc 2) (Q2Qc (-3)) (Q2Qc 10)
           default_threshold default_max_iterations).
  - intros E; apply (f_equal this) in E; vm_compute in E; discriminate.
  - vm_compute; reflexivity.
Defined.

(** X11. The secant-line step solves a linear equation in one step: for
    [f x = a*x + b] with [a <> 0] and a positive threshold, [false_position]
    on any bracket [lb < ub], [secant] from any two distinct guesses and
    [modified_secant] with any non-zero perturbation return the exact root
    [-b/a]. *)
Theorem secant_line_solves_linear
  (a b u v threshold : Qc) (max_iterations : Z) :
  a <> Q2Qc 0 -> (Q2Qc 0 < threshold)%Qc ->
  ((u < v)%Qc ->
   returns (false_position (linear a b) u v threshold max_iterations)
           (Ret (Some (- b / a)%Qc))) /\
  (u <> v ->
   returns (secant (linear a b) u v threshold max_iterations)
           (Ret (Some (- b / a)%Qc))) /\
  (v <> Q2Qc 0 ->
   returns (modified_secant (linear a b) u v threshold max_iterations)
           (Ret (Some (- b / a)%Qc))).
Proof.
  intros Ha Ht. split; [|split].
  - apply false_position_linear; assumption.
  - apply secant_linear; assumption.
  - apply modified_secant_linear; assumption.
Qed.

Lemma secant_line_solves_linear_witness :
  returns (false_position (linear (Q2Qc 2) (Q2Qc (-3))) (Q2Qc 5) (Q2Qc 7)
             default_threshold default_max_iterations)
          (Ret (Some (- Q2Qc (-3) / Q2Qc 2)%Qc)) /\
  returns (secant (linear (Q2Qc 2) (Q2Qc (-3))) (Q2Qc 5) (Q2Qc 7)
             default_threshold default_max_iterations)
          (Ret (Some (- Q2Qc (-3) / Q2Qc 2)%Qc)) /\
  returns (modified_secant (linear (Q2Qc 2) (Q2Qc (-3))) (Q2Qc 5) (Q2Qc 7)
             default_threshold default_max_iterations)
          (Ret (Some (- Q2Qc (-3) / Q2Qc 2)%Qc)).
Proof.
  destruct (@secant_line_solves_linear (Q2Qc 2) (Q2Qc (-3)) (Q2Qc 5) (Q2Qc 7)
              default_threshold default_max_iterations)
    as [H1 [H2 H3]].
  - intros E; apply (f_equal this) in E; vm_compute in E; discriminate.
  - vm_compute; reflexivity.
  - split; [apply H1; vm_compute; reflexivity|].
    split; [apply H2 | apply H3];
      intros E; apply (f_equal this) in E; vm_compute in E; discriminate.
Defined.

(** X12. The scanner feeds the refiners: for a positive increment every
    interval [[a, b]] that [incremental_search] returns has [a < b], so that
    [bisection] and [false_position] enter their loop on it and [secant]
    starts from distinct guesses; and on an interval with
    [f(a)*f(b) < 0] (every interval of a change of sign) [false_position]
    never raises and ends with the not-found signal or an estimate strictly
    inside the interval, within the threshold. *)
Theorem scanned_intervals_feed_refiners
  (f : Qc -> Qc) (lb0 ub0 increment_length threshold : Qc)
  (max_iterations : Z) (n : Z) (l : list (list Qc)) (a b : Qc) :
  (Q2Qc 0 < increment_length)%Qc ->
  returns (incremental_search f lb0 ub0 increment_length) (Ret (n, l)) ->
  In [a; b] l ->
  (a < b)%Qc /\
  ((f a * f b < Q2Qc 0)%Qc ->
   exists o : py (option Qc),
     returns (false_position f a b threshold max_iterations) o /\
     match o with
     | Ret (Some r) => (a < r)%Qc /\ (r < b)%Qc /\ ([f r] < threshold)%Qc
     | Ret None => True
     | Raise _ => False
     end).
Proof.
  intros Hpos Hret Hin.
  destruct (scan_intervals f lb0 ub0 Hpos) as [n' [l' [Hret' [_ Hall]]]].
  assert (E := returns_unique Hret Hret'); injection E as -> ->.
  rewrite Forall_forall in Hall. apply Hall in Hin.
  assert (Hab : (a < b)%Qc).
  { destruct Hin as [x [_ [_ [[_ E]|[_ E]]]]]; injection E as -> ->;
      qc_to_q; lra. }
  split; [exact Hab|].
  intros Hsign; apply false_position_on_sign_change; assumption.
Qed.

Lemma scanned_intervals_feed_refiners_witness :
  (Q2Qc (8 # 5) < Q2Qc (12 # 5))%Qc /\
  ((sample_f (Q2Qc (8 # 5)) * sample_f (Q2Qc (12 # 5)) < Q2Qc 0)%Qc ->
   exists o : py (option Qc),
     returns (false_position sample_f (Q2Qc (8 # 5)) (Q2Qc (12 # 5))
                default_threshold default_max_iterations) o /\
     match o with
     | Ret (Some r) =>
         (Q2Qc (8 # 5) < r)%Qc /\ (r < Q2Qc (12 # 5))%Qc /\
         ([sample_f r] < default_threshold)%Qc
     | Ret None => True
     | Raise _ => False
     end).
Proof.
  apply (@scanned_intervals_feed_refiners sample_f (Q2Qc (-4)) (Q2Qc 8)
           (Q2Qc (4 # 5)) default_threshold default_max_iterations
           (Z.of_nat (length (scanned sample_f (Q2Qc (-4)) (Q2Qc (4 # 5)) 16)))
           (scanned sample_f (Q2Qc (-4)) (Q2Qc (4 # 5)) 16)).
  - vm_compute; reflexivity.
  - apply scan_returns.
    + intros k Hk.
      do 16 (destruct k as [|k]; [vm_compute; reflexivity|]). lia.
    + vm_compute; reflexivity.
  - unfold scanned.
    apply (proj2 (in_flat_map (emitted_at sample_f (Q2Qc (4 # 5)))
                    (map (scan_position (Q2Qc (-4)) (Q2Qc (4 # 5)))
                       (seq 0 16))
                    [Q2Qc (8 # 5); Q2Qc (12 # 5)])).
    exists (scan_position (Q2Qc (-4)) (Q2Qc (4 # 5)) 7).
    split; [apply in_map, in_seq; lia|].
    apply in_or_app; right.
    replace (scan_position (Q2Qc (-4)) (Q2Qc (4 # 5)) 7) with (Q2Qc (8 # 5))
      by (apply Qc_is_canon; vm_compute; reflexivity).
    replace (Q2Qc (8 # 5) + Q2Qc (4 # 5))%num with (Q2Qc (12 # 5))
      by (apply Qc_is_canon; vm_compute; reflexivity).
    vm_compute. left; reflexivity.
Defined.
